(** * OpOptimizers: the peephole optimizer of an operation chain

    A shallow embedding of [src/core/OpOptimizers.cpp]: the two elimination
    passes [RemoveNoOps] and [RemoveInverseOps], and the pass scheduler
    [OptimizeOpVec].

    The operations are reached through virtual calls ([isNoOp],
    [isSameType], [isInverse]).  What such a call answers may depend on
    state the optimizer does not see, so every query takes and returns a
    [World]; an operation family whose queries are plain functions of the
    operations is the instance [pure1]/[pure2] below.

    [Logging.h] and [Op.h] are not part of the source at hand:
    [IsDebugLoggingEnabled] and [SerializeOpVec] are parameters, and a call
    of [LogDebug] appends its message to the log of the call.

    The [int] locals ([count], [firstindex], [passes] and the totals) are
    integers of [Z]: none of them leaves the range of [int] on a vector of
    fewer than 2^31 entries, and signed overflow has no defined result to
    model.  The one conversion the source makes, from [size_t] to [int] in
    the bound of the cursor loop, is written out. *)

From Stdlib Require Import ZArith Lia Bool String.
From stdpp Require Import base list.

Local Open Scope Z_scope.

(** ** Machine integers *)

(** [opVec.size()] is a [size_t]; arithmetic on it wraps modulo 2^64. *)
Definition size_t_wrap (z : Z) : Z := z mod 2 ^ 64.

(** [static_cast<int>(x)]: reduction to the 32-bit two's complement range. *)
Definition int_cast (z : Z) : Z := (z + 2 ^ 31) mod 2 ^ 32 - 2 ^ 31.

Definition INT_MAX : Z := 2 ^ 31 - 1.

(** [static_cast<int>(opVec.size()-1)], the bound of the cursor loops. *)
Definition size_minus_one (n : nat) : Z := int_cast (size_t_wrap (Z.of_nat n - 1)).

(** ** Outcomes of a loop run with a step budget *)

Inductive Result (A : Type) : Type :=
| Finished (a : A)
| OutOfFuel
| OutOfBounds.

Arguments Finished {A} a.
Arguments OutOfFuel {A}.
Arguments OutOfBounds {A}.

(** ** Diagnostics handed to [LogDebug] *)

Inductive LogMsg : Type :=
| MsgOptimizing
    (* "Optimizing Op Vec..." *)
| MsgSerialized (text : string)
    (* SerializeOpVec(ops, 4) *)
| MsgMaxPasses (passes : Z)
    (* "The max number of passes, <passes>, was reached during optimization. ..." *)
| MsgSummary (originalSize finalSize : nat) (passes total_noops total_inverseops : Z)
             (text : string).
    (* "Optimized <o>-><f>, <p> passes, <n> noops removed, <i> inverse ops removed\n<ops>" *)

Definition is_MsgMaxPasses (m : LogMsg) : bool :=
  match m with MsgMaxPasses _ => true | _ => false end.

Definition MAX_OPTIMIZATION_PASSES : Z := 8.

(** ** Vector primitives *)

(** [opVec[i]] with an [int] index; [None] is an access outside the vector. *)
Definition vec_at {A} (v : list A) (i : Z) : option A :=
  if i <? 0 then None else v !! Z.to_nat i.

(** [opVec.erase(opVec.begin() + i, opVec.begin() + j)]. *)
Definition erase_range {A} (v : list A) (i j : Z) : list A :=
  take (Z.to_nat i) v ++ drop (Z.to_nat j) v.

Section OpOptimizers.
Context {Op World : Type}.

(** The capability contract of an operation. *)
Variable isNoOp : Op -> World -> bool * World.
Variable isSameType : Op -> Op -> World -> bool * World.
Variable isInverse : Op -> Op -> World -> bool * World.

(** The logging collaborator and the serializer. *)
Variable IsDebugLoggingEnabled : bool.
Variable SerializeOpVec : list Op -> Z -> string.

(** *** RemoveNoOps *)

(** The iterator loop, from the iterator's position to [end()]: the
    result is what remains of that part of the vector. *)
Fixpoint RemoveNoOps_from (rest : list Op) (count : Z) (w : World)
  : list Op * Z * World :=
  match rest with
  | [] => ([], count, w)
  | op :: rest' =>
      let (noop, w') := isNoOp op w in
      if noop then RemoveNoOps_from rest' (count + 1) w'
      else
        let '(kept, count', w'') := RemoveNoOps_from rest' count w' in
        (op :: kept, count', w'')
  end.

Definition RemoveNoOps (opVec : list Op) (w : World) : list Op * Z * World :=
  RemoveNoOps_from opVec 0 w.

(** *** RemoveInverseOps *)

Record InvState : Type := mkInvState {
  iv_opVec : list Op;
  iv_count : Z;
  iv_firstindex : Z;
  iv_world : World
}.

Inductive Step : Type :=
| Done
| Continue (s : InvState)
| Fault.

(** [first->isSameType(second) && first->isInverse(second)], with the
    short circuit of [&&]. *)
Definition pair_cancels (first second : Op) (w : World) : bool * World :=
  let (same, w1) := isSameType first second w in
  if same then isInverse first second w1 else (false, w1).

(** One evaluation of the loop condition and, when it holds, the body. *)
Definition RemoveInverseOps_body (s : InvState) : Step :=
  let opVec := iv_opVec s in
  let firstindex := iv_firstindex s in
  if firstindex <? size_minus_one (length opVec) then
    match vec_at opVec firstindex, vec_at opVec (firstindex + 1) with
    | Some first, Some second =>
        let (cancel, w') := pair_cancels first second (iv_world s) in
        if cancel then
          Continue (mkInvState (erase_range opVec firstindex (firstindex + 2))
                               (iv_count s + 1)
                               (Z.max 0 (firstindex - 1))
                               w')
        else
          Continue (mkInvState opVec (iv_count s) (firstindex + 1) w')
    | _, _ => Fault
    end
  else Done.

(** The loop; the natural number counts the bodies executed. *)
Fixpoint RemoveInverseOps_loop (fuel : nat) (iters : nat) (s : InvState)
  : Result (nat * InvState) :=
  match fuel with
  | O => OutOfFuel
  | S fuel' =>
      match RemoveInverseOps_body s with
      | Done => Finished (iters, s)
      | Continue s' => RemoveInverseOps_loop fuel' (S iters) s'
      | Fault => OutOfBounds
      end
  end.

Definition RemoveInverseOps_init (opVec : list Op) (w : World) : InvState :=
  mkInvState opVec 0 0 w.

Definition RemoveInverseOps_run (opVec : list Op) (w : World)
  : Result (nat * InvState) :=
  RemoveInverseOps_loop (S (length opVec)) 0 (RemoveInverseOps_init opVec w).

Definition RemoveInverseOps (opVec : list Op) (w : World)
  : Result (list Op * Z * World) :=
  match RemoveInverseOps_run opVec w with
  | Finished (_, s) => Finished (iv_opVec s, iv_count s, iv_world s)
  | OutOfFuel => OutOfFuel
  | OutOfBounds => OutOfBounds
  end.

(** The states a run of the loop goes through. *)
Inductive RemoveInverseOps_reaches (s : InvState) : InvState -> Prop :=
| reaches_here : RemoveInverseOps_reaches s s
| reaches_next s' s'' :
    RemoveInverseOps_reaches s s' ->
    RemoveInverseOps_body s' = Continue s'' ->
    RemoveInverseOps_reaches s s''.

(** *** OptimizeOpVec *)

Record OptState : Type := mkOptState {
  os_ops : list Op;
  os_world : World;
  os_total_noops : Z;
  os_total_inverseops : Z;
  os_passes : Z
}.

(** How the [while] loop was left. *)
Inductive LoopExit : Type :=
| ExitBreak       (* a round removed nothing *)
| ExitCondition.  (* passes <= MAX_OPTIMIZATION_PASSES became false *)

(** The [while(passes<=MAX_OPTIMIZATION_PASSES)] loop; [rounds] counts
    the bodies executed. *)
Fixpoint OptimizeOpVec_loop (fuel : nat) (rounds : nat) (st : OptState)
  : Result (nat * LoopExit * OptState) :=
  match fuel with
  | O => OutOfFuel
  | S fuel' =>
      if os_passes st <=? MAX_OPTIMIZATION_PASSES then
        let '(ops1, noops, w1) := RemoveNoOps (os_ops st) (os_world st) in
        match RemoveInverseOps ops1 w1 with
        | Finished (ops2, inverseops, w2) =>
            if (noops =? 0) && (inverseops =? 0) then
              Finished (S rounds, ExitBreak,
                        mkOptState ops2 w2 (os_total_noops st)
                                   (os_total_inverseops st) (os_passes st))
            else
              OptimizeOpVec_loop fuel' (S rounds)
                (mkOptState ops2 w2
                            (os_total_noops st + noops)
                            (os_total_inverseops st + inverseops)
                            (os_passes st + 1))
        | OutOfFuel => OutOfFuel
        | OutOfBounds => OutOfBounds
        end
      else Finished (rounds, ExitCondition, st)
  end.

(** What a call leaves behind: the chain, the world, the messages given
    to [LogDebug], and the locals of the call. *)
Record Outcome : Type := mkOutcome {
  out_ops : list Op;
  out_world : World;
  out_log : list LogMsg;
  out_rounds : nat;
  out_exit : option LoopExit;
  out_passes : Z;
  out_total_noops : Z;
  out_total_inverseops : Z
}.

Definition OptimizeOpVec_fuel : nat := S (Z.to_nat (MAX_OPTIMIZATION_PASSES + 1)).

Definition OptimizeOpVec (ops : list Op) (w : World) : Result Outcome :=
  match ops with
  | [] => Finished (mkOutcome ops w [] 0 None 0 0 0)
  | _ :: _ =>
      let log0 :=
        if IsDebugLoggingEnabled
        then [MsgOptimizing; MsgSerialized (SerializeOpVec ops 4)]
        else [] in
      let originalSize := length ops in
      match OptimizeOpVec_loop OptimizeOpVec_fuel 0 (mkOptState ops w 0 0 0) with
      | Finished (rounds, exit, st) =>
          let finalSize := length (os_ops st) in
          let log1 :=
            if os_passes st =? MAX_OPTIMIZATION_PASSES
            then [MsgMaxPasses (os_passes st)]
            else [] in
          let log2 :=
            if IsDebugLoggingEnabled
            then [MsgSummary originalSize finalSize (os_passes st)
                             (os_total_noops st) (os_total_inverseops st)
                             (SerializeOpVec (os_ops st) 4)]
            else [] in
          Finished (mkOutcome (os_ops st) (os_world st)
                              (log0 ++ log1 ++ log2)
                              rounds (Some exit) (os_passes st)
                              (os_total_noops st) (os_total_inverseops st))
      | OutOfFuel => OutOfFuel
      | OutOfBounds => OutOfBounds
      end
  end.

End OpOptimizers.

Arguments mkInvState {Op World} _ _ _ _.
Arguments iv_opVec {Op World} _.
Arguments iv_count {Op World} _.
Arguments iv_firstindex {Op World} _.
Arguments iv_world {Op World} _.
Arguments Done {Op World}.
Arguments Continue {Op World} _.
Arguments Fault {Op World}.

(** ** Operations whose queries are functions of the operations alone *)

Definition pure1 {Op World : Type} (p : Op -> bool) : Op -> World -> bool * World :=
  fun op w => (p op, w).

Definition pure2 {Op World : Type} (p : Op -> Op -> bool)
  : Op -> Op -> World -> bool * World :=
  fun first second w => (p first second, w).

(** ** The operations of the unit test

    Modelled from the spec: [ExponentOps.h] and [LogOps.h] are not part of
    the source at hand.  An exponent and a logarithm operation, each in a
    direction; no operation is an identity, two operations are of the same
    type when both are exponents or both are logarithms, and inverse to
    each other when, besides, their directions are opposite. *)

Module Sample.

Inductive TransformDirection : Type :=
| TRANSFORM_DIR_FORWARD
| TRANSFORM_DIR_INVERSE.

Inductive SampleOp : Type :=
| ExponentOp (dir : TransformDirection)
| LogOp (dir : TransformDirection).

Definition opposite (a b : TransformDirection) : bool :=
  match a, b with
  | TRANSFORM_DIR_FORWARD, TRANSFORM_DIR_INVERSE => true
  | TRANSFORM_DIR_INVERSE, TRANSFORM_DIR_FORWARD => true
  | _, _ => false
  end.

Definition noop (op : SampleOp) : bool := false.

Definition same (a b : SampleOp) : bool :=
  match a, b with
  | ExponentOp _, ExponentOp _ => true
  | LogOp _, LogOp _ => true
  | _, _ => false
  end.

Definition inverse (a b : SampleOp) : bool :=
  match a, b with
  | ExponentOp d, ExponentOp e => opposite d e
  | LogOp d, LogOp e => opposite d e
  | _, _ => false
  end.

Definition nested : list SampleOp :=
  [ExponentOp TRANSFORM_DIR_FORWARD; LogOp TRANSFORM_DIR_FORWARD;
   LogOp TRANSFORM_DIR_INVERSE; ExponentOp TRANSFORM_DIR_INVERSE].

Definition staggered : list SampleOp :=
  [ExponentOp TRANSFORM_DIR_FORWARD; ExponentOp TRANSFORM_DIR_INVERSE;
   LogOp TRANSFORM_DIR_INVERSE; LogOp TRANSFORM_DIR_FORWARD;
   ExponentOp TRANSFORM_DIR_FORWARD].

Definition serialize (ops : list SampleOp) (indent : Z) : string := EmptyString.

End Sample.

(** ** The cursor algorithm in the words of the specification

    A cursor starts at index 0; the operation at the cursor is compared with
    its immediate successor; on a hit both are removed, the pair count grows
    and the cursor moves back by one, not below 0; otherwise the cursor
    advances; the scan stops when the cursor has no successor left. *)

Section CursorAlgorithm.
Context {Op World : Type}.
Variable test : Op -> Op -> World -> bool * World.

Record CursorState : Type := mkCursor {
  cu_chain : list Op;
  cu_pairs : nat;
  cu_cursor : nat;
  cu_world : World
}.

Definition cursor_step (s : CursorState) : option CursorState :=
  match cu_chain s !! cu_cursor s, cu_chain s !! S (cu_cursor s) with
  | Some a, Some b =>
      let (hit, w') := test a b (cu_world s) in
      if hit then
        Some (mkCursor (take (cu_cursor s) (cu_chain s)
                          ++ drop (cu_cursor s + 2) (cu_chain s))
                       (S (cu_pairs s)) (Nat.pred (cu_cursor s)) w')
      else
        Some (mkCursor (cu_chain s) (cu_pairs s) (S (cu_cursor s)) w')
  | _, _ => None
  end.

Fixpoint cursor_scan (budget : nat) (s : CursorState) : CursorState :=
  match budget with
  | O => s
  | S budget' =>
      match cursor_step s with
      | Some s' => cursor_scan budget' s'
      | None => s
      end
  end.

Definition cancel_pairs (chain : list Op) (w : World) : CursorState :=
  cursor_scan (length chain) (mkCursor chain 0 0 w).

End CursorAlgorithm.

Arguments mkCursor {Op World} _ _ _ _.
Arguments cu_chain {Op World} _.
Arguments cu_pairs {Op World} _.
Arguments cu_cursor {Op World} _.
Arguments cu_world {Op World} _.

(** The state of the loop of [RemoveInverseOps], read as a cursor state. *)
Definition as_cursor {Op World : Type} (s : @InvState Op World) : @CursorState Op World :=
  mkCursor (iv_opVec s) (Z.to_nat (iv_count s)) (Z.to_nat (iv_firstindex s)) (iv_world s).

(** "The same operation type AND each the exact inverse of the other". *)
Definition mutual_inverse_test {Op World : Type}
    (isSameType isInverse : Op -> Op -> World -> bool * World)
    (first second : Op) (w : World) : bool * World :=
  let (same, w1) := isSameType first second w in
  if same then
    let (forth, w2) := isInverse first second w1 in
    if forth then isInverse second first w2 else (false, w2)
  else (false, w1).

(** ** Chains on which a pass finds nothing *)

(** The pair test of [RemoveInverseOps] for queries that are functions. *)
Definition cancels {Op : Type} (same inverse : Op -> Op -> bool) (a b : Op) : bool :=
  same a b && inverse a b.

(** No pair below the cursor bound cancels. *)
Definition settled {Op : Type} (c : Op -> Op -> bool) (l : list Op) : Prop :=
  forall (k : nat) (a b : Op),
    Z.of_nat k < size_minus_one (length l) ->
    l !! k = Some a -> l !! S k = Some b -> c a b = false.

(** No adjacent pair cancels. *)
Fixpoint no_inverse_pair {Op : Type} (c : Op -> Op -> bool) (l : list Op) : bool :=
  match l with
  | a :: tl =>
      match tl with
      | b :: _ => negb (c a b) && no_inverse_pair c tl
      | [] => true
      end
  | [] => true
  end.

Definition no_noop {Op : Type} (noop : Op -> bool) (l : list Op) : bool :=
  forallb (fun op => negb (noop op)) l.

(** A chain on which neither pass finds anything. *)
Definition quiet {Op : Type} (noop : Op -> bool) (c : Op -> Op -> bool)
    (l : list Op) : Prop :=
  no_noop noop l = true /\ settled c l.

(** ** Operations whose answers drift

    Operation [k] reports itself an identity on its query number [k]
    (counting from 0) and on no other; the world is the record of the
    queries made so far.  No two operations are of one type. *)

Module Drifting.

Definition isNoOp (op : nat) (w : list nat) : bool * list nat :=
  (Nat.eqb (count_occ Nat.eq_dec w op) op, op :: w).

Definition isSameType (a b : nat) (w : list nat) : bool * list nat := (false, w).

Definition isInverse (a b : nat) (w : list nat) : bool * list nat := (false, w).

Definition serialize (ops : list nat) (indent : Z) : string := EmptyString.

Definition optimize (debug : bool) (ops : list nat) : Result Outcome :=
  OptimizeOpVec isNoOp isSameType isInverse debug serialize ops [].

End Drifting.

(** ** Operations with a one-sided inverse query

    All operations are of one type; [a] reports [b] as its inverse when
    [a < b]. *)

Module OneSided.

Definition same (a b : nat) : bool := true.

Definition inverse (a b : nat) : bool := Nat.ltb a b.

End OneSided.

(** ** Pair cancellation as a stack

    The operations before the cursor, the nearest on top, and the
    operation that follows the cursor: a pair that cancels pops the top,
    any other operation is pushed. *)

Definition push_or_cancel {Op : Type} (c : Op -> Op -> bool)
    (stack : list Op) (op : Op) : list Op :=
  match stack with
  | top :: below => if c top op then below else op :: stack
  | [] => [op]
  end.

Definition cancel_stack {Op : Type} (c : Op -> Op -> bool) (ops : list Op) : list Op :=
  rev (fold_left (push_or_cancel c) ops []).

(** ** An identity query that records the operations it was asked of *)

Definition recorded {Op : Type} (p : Op -> bool) : Op -> list Op -> bool * list Op :=
  fun op asked => (p op, op :: asked).

(** ** Facts about the machine integers and the vector primitives *)

Lemma size_minus_one_empty : size_minus_one 0 = -1.
Proof. reflexivity. Qed.

Lemma size_minus_one_le (n : nat) : size_minus_one n <= Z.of_nat n - 1.
Proof.
  destruct n as [|n]; [rewrite size_minus_one_empty; lia |].
  unfold size_minus_one, int_cast, size_t_wrap.
  assert (H0 : 0 <= Z.of_nat (S n) - 1) by lia.
  set (x := Z.of_nat (S n) - 1) in *.
  assert (H1 : 0 <= x mod 2 ^ 64 <= x).
  { split; [apply Z.mod_pos_bound; lia | apply Z.mod_le; lia]. }
  assert (H2 : (x mod 2 ^ 64 + 2 ^ 31) mod 2 ^ 32 <= x mod 2 ^ 64 + 2 ^ 31).
  { apply Z.mod_le; lia. }
  lia.
Qed.

Lemma size_minus_one_exact (n : nat) :
  Z.of_nat n <= INT_MAX + 1 -> size_minus_one n = Z.of_nat n - 1.
Proof.
  unfold INT_MAX. intros Hn.
  destruct n as [|n]; [reflexivity |].
  unfold size_minus_one, int_cast, size_t_wrap.
  rewrite (Z.mod_small (Z.of_nat (S n) - 1)) by lia.
  rewrite Z.mod_small by lia. lia.
Qed.

Lemma vec_at_lookup {A} (v : list A) (i : Z) :
  0 <= i -> vec_at v i = v !! Z.to_nat i.
Proof. intros Hi. unfold vec_at. destruct (Z.ltb_spec i 0); [lia | done]. Qed.

Lemma vec_at_in_bounds {A} (v : list A) (i : Z) :
  0 <= i < Z.of_nat (length v) -> exists x, vec_at v i = Some x.
Proof.
  intros Hi. rewrite vec_at_lookup by lia.
  destruct (lookup_lt_is_Some_2 v (Z.to_nat i)) as [x Hx]; [lia | eauto].
Qed.

Lemma erase_range_sublist {A} (v : list A) (i j : Z) :
  i <= j -> erase_range v i j `sublist_of` v.
Proof.
  intros Hij. unfold erase_range.
  rewrite <- (take_drop (Z.to_nat i) v) at 3.
  apply sublist_app; [done |].
  replace (Z.to_nat j) with (Z.to_nat i + (Z.to_nat j - Z.to_nat i))%nat by lia.
  rewrite <- drop_drop. apply sublist_drop.
Qed.

Lemma erase_range_length {A} (v : list A) (i : Z) :
  0 <= i -> i + 2 <= Z.of_nat (length v) ->
  Z.of_nat (length (erase_range v i (i + 2))) = Z.of_nat (length v) - 2.
Proof.
  intros Hi Hlen. unfold erase_range.
  rewrite length_app, length_take, length_drop. lia.
Qed.

(** ** The two passes, for arbitrary queries *)

Section PassFacts.
Context {Op World : Type}.
Variable isNoOp : Op -> World -> bool * World.
Variable isSameType isInverse : Op -> Op -> World -> bool * World.

Local Abbreviation body := (RemoveInverseOps_body isSameType isInverse).
Local Abbreviation loop := (RemoveInverseOps_loop isSameType isInverse).
Local Abbreviation len s := (Z.of_nat (length (iv_opVec s))).

Lemma RemoveNoOps_from_shape (rest : list Op) (count : Z) (w : World) :
  (RemoveNoOps_from isNoOp rest count w).1.1 `sublist_of` rest /\
  (RemoveNoOps_from isNoOp rest count w).1.2 =
    count + (Z.of_nat (length rest)
             - Z.of_nat (length (RemoveNoOps_from isNoOp rest count w).1.1)).
Proof.
  revert count w. induction rest as [|op rest IH]; intros count w; simpl.
  - split; [constructor | lia].
  - destruct (isNoOp op w) as [[] w'].
    + destruct (IH (count + 1) w') as [Hsub Hcnt]. split.
      * by apply sublist_cons.
      * rewrite Hcnt. lia.
    + specialize (IH count w').
      destruct (RemoveNoOps_from isNoOp rest count w') as [[kept count'] w''].
      simpl in *. destruct IH as [Hsub Hcnt]. split.
      * by apply sublist_skip.
      * lia.
Qed.

(** What one evaluation of condition and body does. *)
Lemma RemoveInverseOps_body_cases (s : InvState) :
  0 <= iv_firstindex s ->
  (body s = Done /\ size_minus_one (length (iv_opVec s)) <= iv_firstindex s)
  \/ (exists first second hit w',
        iv_firstindex s < size_minus_one (length (iv_opVec s)) /\
        iv_opVec s !! Z.to_nat (iv_firstindex s) = Some first /\
        iv_opVec s !! S (Z.to_nat (iv_firstindex s)) = Some second /\
        pair_cancels isSameType isInverse first second (iv_world s) = (hit, w') /\
        body s =
          Continue
            (if hit
             then mkInvState
                    (erase_range (iv_opVec s) (iv_firstindex s) (iv_firstindex s + 2))
                    (iv_count s + 1) (Z.max 0 (iv_firstindex s - 1)) w'
             else mkInvState (iv_opVec s) (iv_count s) (iv_firstindex s + 1) w')).
Proof.
  intros Hi. unfold RemoveInverseOps_body.
  destruct (Z.ltb_spec (iv_firstindex s) (size_minus_one (length (iv_opVec s))))
    as [Hlt | Hge]; [right | left; done].
  pose proof (size_minus_one_le (length (iv_opVec s))) as Hle.
  destruct (vec_at_in_bounds (iv_opVec s) (iv_firstindex s)) as [first Hf]; [lia |].
  destruct (vec_at_in_bounds (iv_opVec s) (iv_firstindex s + 1)) as [second Hs]; [lia |].
  rewrite Hf, Hs.
  rewrite vec_at_lookup in Hf, Hs by lia.
  replace (Z.to_nat (iv_firstindex s + 1)) with (S (Z.to_nat (iv_firstindex s))) in Hs by lia.
  destruct (pair_cancels isSameType isInverse first second (iv_world s)) as [hit w'] eqn:Hp.
  exists first, second, hit, w'. repeat split; try done.
  by destruct hit.
Qed.

(** The cursor stays inside the vector, the vector only loses entries,
    two per counted pair, and the distance from the cursor to the end
    shrinks. *)
Lemma RemoveInverseOps_body_step (s s' : InvState) :
  0 <= iv_firstindex s ->
  body s = Continue s' ->
  0 <= iv_firstindex s' <= len s' /\
  len s' - iv_firstindex s' < len s - iv_firstindex s /\
  iv_opVec s' `sublist_of` iv_opVec s /\
  iv_count s <= iv_count s' /\
  len s' = len s - 2 * (iv_count s' - iv_count s).
Proof.
  intros Hi Hb.
  destruct (RemoveInverseOps_body_cases s Hi)
    as [[Hd _] | (first & second & hit & w' & Hlt & _ & _ & _ & Hc)];
    [congruence |].
  rewrite Hc in Hb. injection Hb as <-.
  pose proof (size_minus_one_le (length (iv_opVec s))) as Hle.
  destruct hit; simpl.
  - rewrite erase_range_length by lia.
    repeat split; try lia. apply erase_range_sublist. lia.
  - repeat split; try lia. done.
Qed.

Lemma RemoveInverseOps_body_no_fault (s : InvState) :
  0 <= iv_firstindex s -> body s <> Fault.
Proof.
  intros Hi.
  destruct (RemoveInverseOps_body_cases s Hi)
    as [[Hd _] | (first & second & hit & w' & _ & _ & _ & _ & Hc)]; congruence.
Qed.

(** The loop ends within its budget. *)
Lemma RemoveInverseOps_loop_finishes (fuel iters : nat) (s : InvState) :
  0 <= iv_firstindex s <= len s ->
  len s - iv_firstindex s < Z.of_nat fuel ->
  exists n s',
    loop fuel iters s = Finished (n, s') /\
    body s' = Done /\
    (Z.of_nat n <= Z.of_nat iters + (len s - iv_firstindex s)).
Proof.
  revert iters s. induction fuel as [|fuel IH]; intros iters s Hi Hfuel; [lia |].
  simpl. destruct (body s) as [|s1|] eqn:Hb.
  - exists iters, s. repeat split; [done | lia].
  - destruct (RemoveInverseOps_body_step s s1) as (Hi1 & Hmu & _); [lia | done |].
    destruct (IH (S iters) s1) as (n & s' & Hrun & Hdone & Hn); [done | lia |].
    exists n, s'. repeat split; [done | done | lia].
  - exfalso. eapply RemoveInverseOps_body_no_fault; [|done]. lia.
Qed.

(** A property kept by every step holds when the loop ends. *)
Lemma RemoveInverseOps_loop_invariant (P : InvState -> Prop)
      (fuel iters n : nat) (s s' : InvState) :
  (forall a b, 0 <= iv_firstindex a -> P a -> body a = Continue b -> P b) ->
  0 <= iv_firstindex s -> P s ->
  loop fuel iters s = Finished (n, s') ->
  P s' /\ 0 <= iv_firstindex s' /\ body s' = Done.
Proof.
  intros Hstep. revert iters s.
  induction fuel as [|fuel IH]; intros iters s Hi HP Hrun; [done |].
  simpl in Hrun. destruct (body s) as [|s1|] eqn:Hb; [| |done].
  - by injection Hrun as <- <-.
  - eapply (IH (S iters) s1); [| by eapply Hstep | done].
    by destruct (RemoveInverseOps_body_step s s1) as ((? & _) & _).
Qed.

End PassFacts.

(** ** The scheduler, for arbitrary queries *)

Section SchedulerFacts.
Context {Op World : Type}.
Variable isNoOp : Op -> World -> bool * World.
Variable isSameType isInverse : Op -> Op -> World -> bool * World.
Variable IsDebugLoggingEnabled : bool.
Variable SerializeOpVec : list Op -> Z -> string.

Local Abbreviation sweep := (OptimizeOpVec_loop isNoOp isSameType isInverse).
Local Abbreviation size st := (Z.of_nat (length (os_ops st))).

(** [RemoveInverseOps] returns, with a sub-chain two entries shorter per
    counted pair, after at most as many bodies as the chain is long. *)
Lemma RemoveInverseOps_run_finishes (opVec : list Op) (w : World) :
  exists n s,
    RemoveInverseOps_run isSameType isInverse opVec w = Finished (n, s) /\
    RemoveInverseOps_body isSameType isInverse s = Done /\
    (n <= length opVec)%nat /\
    0 <= iv_firstindex s /\
    iv_opVec s `sublist_of` opVec /\
    0 <= iv_count s /\
    Z.of_nat (length (iv_opVec s)) = Z.of_nat (length opVec) - 2 * iv_count s.
Proof.
  unfold RemoveInverseOps_run.
  destruct (RemoveInverseOps_loop_finishes isSameType isInverse
              (S (length opVec)) 0 (RemoveInverseOps_init opVec w))
    as (n & s & Hrun & Hdone & Hn); simpl; [lia | lia |].
  exists n, s. simpl in Hn.
  pose proof (RemoveInverseOps_loop_invariant isSameType isInverse
    (fun a => iv_opVec a `sublist_of` opVec /\ 0 <= iv_count a /\
              Z.of_nat (length (iv_opVec a))
              = Z.of_nat (length opVec) - 2 * iv_count a)
    (S (length opVec)) 0 n (RemoveInverseOps_init opVec w) s) as Hinv.
  destruct Hinv as ((Hsub & Hc & Hlen) & Hi & _); simpl; try done; try lia.
  - intros a b Ha (Hsa & Hca & Hla) Hab.
    destruct (RemoveInverseOps_body_step isSameType isInverse a b Ha Hab)
      as (_ & _ & Hs & Hcnt & Hl).
    repeat split; [by etrans | lia | lia].
  - repeat split; try done; lia.
  - repeat split; try done; lia.
Qed.

Lemma RemoveInverseOps_finishes (opVec : list Op) (w : World) :
  exists ops' count w',
    RemoveInverseOps isSameType isInverse opVec w = Finished (ops', count, w') /\
    ops' `sublist_of` opVec /\
    0 <= count /\
    Z.of_nat (length ops') = Z.of_nat (length opVec) - 2 * count.
Proof.
  destruct (RemoveInverseOps_run_finishes opVec w)
    as (n & s & Hrun & _ & _ & _ & Hsub & Hc & Hlen).
  exists (iv_opVec s), (iv_count s), (iv_world s).
  unfold RemoveInverseOps. by rewrite Hrun.
Qed.

Lemma RemoveNoOps_shape (opVec : list Op) (w : World) :
  (RemoveNoOps isNoOp opVec w).1.1 `sublist_of` opVec /\
  0 <= (RemoveNoOps isNoOp opVec w).1.2 /\
  Z.of_nat (length (RemoveNoOps isNoOp opVec w).1.1)
  = Z.of_nat (length opVec) - (RemoveNoOps isNoOp opVec w).1.2.
Proof.
  unfold RemoveNoOps.
  destruct (RemoveNoOps_from_shape isNoOp opVec 0 w) as [Hsub Hcnt].
  pose proof (sublist_length _ _ Hsub). repeat split; [done | lia | lia].
Qed.

(** The pass loop ends within its budget; at its end the chain is a
    sub-chain of the one it started from, shortened by the removals it
    accumulated. *)
Lemma OptimizeOpVec_loop_finishes (fuel rounds : nat) (st : OptState) :
  0 <= os_passes st <= MAX_OPTIMIZATION_PASSES + 1 ->
  MAX_OPTIMIZATION_PASSES + 1 - os_passes st < Z.of_nat fuel ->
  exists n e st',
    sweep fuel rounds st = Finished (n, e, st') /\
    os_ops st' `sublist_of` os_ops st /\
    size st' = size st - (os_total_noops st' - os_total_noops st)
               - 2 * (os_total_inverseops st' - os_total_inverseops st) /\
    os_total_noops st <= os_total_noops st' /\
    os_total_inverseops st <= os_total_inverseops st' /\
    os_passes st <= os_passes st' /\
    match e with
    | ExitBreak =>
        os_passes st' <= MAX_OPTIMIZATION_PASSES /\
        Z.of_nat n = Z.of_nat rounds + (os_passes st' - os_passes st) + 1
    | ExitCondition =>
        os_passes st' = MAX_OPTIMIZATION_PASSES + 1 /\
        Z.of_nat n = Z.of_nat rounds + (os_passes st' - os_passes st)
    end.
Proof.
  revert rounds st. induction fuel as [|fuel IH]; intros rounds st Hp Hfuel; [lia |].
  simpl. destruct (Z.leb_spec (os_passes st) MAX_OPTIMIZATION_PASSES) as [Hle | Hgt].
  - destruct (RemoveNoOps_shape (os_ops st) (os_world st)) as (Hs1 & Hc1 & Hl1).
    destruct (RemoveNoOps isNoOp (os_ops st) (os_world st)) as [[ops1 noops] w1].
    simpl in Hs1, Hc1, Hl1.
    destruct (RemoveInverseOps_finishes ops1 w1)
      as (ops2 & inverseops & w2 & -> & Hs2 & Hc2 & Hl2).
    destruct ((noops =? 0) && (inverseops =? 0)) eqn:Hzero.
    + apply andb_prop in Hzero as [Hn Hi].
      apply Z.eqb_eq in Hn, Hi. subst noops inverseops.
      eexists _, _, _. split; [reflexivity |]. simpl.
      repeat split; try lia. by etrans.
    + destruct (IH (S rounds)
                   (mkOptState ops2 w2 (os_total_noops st + noops)
                      (os_total_inverseops st + inverseops) (os_passes st + 1)))
        as (n & e & st' & Hrun & Hsub & Hlen & Hn & Hi & Hps & He);
        simpl; [lia | lia |].
      simpl in *. exists n, e, st'. split; [done |].
      repeat split; try lia.
      * do 2 (etrans; [|done]). done.
      * destruct e; lia.
  - eexists _, _, _. split; [reflexivity |].
    repeat split; try done; lia.
Qed.

(** Every call returns; what it returns. *)
Lemma OptimizeOpVec_outcome (ops : list Op) (w : World) :
  exists out,
    OptimizeOpVec isNoOp isSameType isInverse IsDebugLoggingEnabled SerializeOpVec ops w
    = Finished out /\
    out_ops out `sublist_of` ops /\
    Z.of_nat (length (out_ops out))
    = Z.of_nat (length ops) - out_total_noops out - 2 * out_total_inverseops out /\
    0 <= out_total_noops out /\
    0 <= out_total_inverseops out /\
    existsb is_MsgMaxPasses (out_log out) = (out_passes out =? MAX_OPTIMIZATION_PASSES) /\
    match out_exit out with
    | None => ops = [] /\ out_rounds out = 0%nat /\ out_passes out = 0
    | Some ExitBreak =>
        0 <= out_passes out <= MAX_OPTIMIZATION_PASSES /\
        Z.of_nat (out_rounds out) = out_passes out + 1
    | Some ExitCondition =>
        out_passes out = MAX_OPTIMIZATION_PASSES + 1 /\
        Z.of_nat (out_rounds out) = MAX_OPTIMIZATION_PASSES + 1
    end.
Proof.
  destruct ops as [|op ops].
  - eexists. split; [reflexivity |]. simpl. repeat split; try done.
  - unfold OptimizeOpVec.
    destruct (OptimizeOpVec_loop_finishes OptimizeOpVec_fuel 0
                (mkOptState (op :: ops) w 0 0 0))
      as (n & e & st' & -> & Hsub & Hlen & Hn & Hi & Hp & He).
    { simpl. unfold MAX_OPTIMIZATION_PASSES. lia. }
    { simpl. unfold OptimizeOpVec_fuel, MAX_OPTIMIZATION_PASSES. lia. }
    eexists. split; [reflexivity |]. simpl in *.
    repeat split; try done; try lia.
    + destruct IsDebugLoggingEnabled;
        destruct (os_passes st' =? MAX_OPTIMIZATION_PASSES); reflexivity.
    + destruct e; lia.
Qed.

End SchedulerFacts.

(** ** Queries that are functions of the operations *)

Section PureFacts.
Context {Op World : Type}.
Variable noop : Op -> bool.
Variable same inverse : Op -> Op -> bool.
Variable IsDebugLoggingEnabled : bool.
Variable SerializeOpVec : list Op -> Z -> string.

Local Abbreviation isNoOp := (pure1 (World:=World) noop).
Local Abbreviation isSameType := (pure2 (World:=World) same).
Local Abbreviation isInverse := (pure2 (World:=World) inverse).
Local Abbreviation c := (cancels same inverse).

Lemma pair_cancels_pure (a b : Op) (w : World) :
  pair_cancels isSameType isInverse a b w = (c a b, w).
Proof. unfold pair_cancels, pure2, cancels. by destruct (same a b). Qed.

Lemma RemoveNoOps_from_pure (rest : list Op) (count : Z) (w : World) :
  RemoveNoOps_from isNoOp rest count w
  = (List.filter (fun op => negb (noop op)) rest,
     count + Z.of_nat (length (List.filter noop rest)), w).
Proof.
  revert count. induction rest as [|op rest IH]; intros count; simpl.
  - do 2 f_equal. lia.
  - unfold pure1 at 1. destruct (noop op); simpl.
    + rewrite IH. do 2 f_equal. lia.
    + by rewrite IH.
Qed.

Lemma filter_no_noop (l : list Op) :
  no_noop noop (List.filter (fun op => negb (noop op)) l) = true.
Proof.
  unfold no_noop. apply forallb_forall. intros op Hin.
  by apply filter_In in Hin as [_ ?].
Qed.

Lemma no_noop_sublist (l1 l2 : list Op) :
  l1 `sublist_of` l2 -> no_noop noop l2 = true -> no_noop noop l1 = true.
Proof.
  unfold no_noop. induction 1 as [|x l1 l2 _ IH|x l1 l2 _ IH]; simpl; [done | |].
  - intros [-> ?]%andb_prop. by rewrite IH.
  - intros [_ ?]%andb_prop. by apply IH.
Qed.

Lemma RemoveNoOps_no_noop (l : list Op) (w : World) :
  no_noop noop l = true -> RemoveNoOps isNoOp l w = (l, 0, w).
Proof.
  intros Hl. unfold RemoveNoOps. rewrite RemoveNoOps_from_pure.
  assert (Hkeep : List.filter (fun op => negb (noop op)) l = l
                  /\ List.filter noop l = []).
  { unfold no_noop in Hl. induction l as [|op l IH]; simpl in *; [done |].
    apply andb_prop in Hl as [Hop Hl]. destruct (IH Hl) as [-> ->].
    rewrite Hop. by destruct (noop op). }
  destruct Hkeep as [-> ->]. done.
Qed.

Lemma no_inverse_pair_lookup (l : list Op) (k : nat) (a b : Op) :
  no_inverse_pair c l = true ->
  l !! k = Some a -> l !! S k = Some b -> c a b = false.
Proof.
  revert l. induction k as [|k IH]; intros [|x [|y l]] Hl Ha Hb; simplify_eq/=.
  - apply andb_prop in Hl as [Hxy _]. by apply negb_true_iff.
  - apply andb_prop in Hl as [_ Hl]. by eapply (IH (y :: l)).
Qed.

Lemma no_inverse_pair_settled (l : list Op) :
  no_inverse_pair c l = true -> settled c l.
Proof. intros Hl k a b _. by apply no_inverse_pair_lookup. Qed.

(** On a settled chain the cursor only advances. *)
Lemma RemoveInverseOps_loop_settled (l : list Op) (w : World) (count : Z)
      (fuel iters n : nat) (s s' : InvState) :
  settled c l ->
  0 <= iv_firstindex s ->
  iv_opVec s = l -> iv_count s = count -> iv_world s = w ->
  RemoveInverseOps_loop isSameType isInverse fuel iters s = Finished (n, s') ->
  iv_opVec s' = l /\ iv_count s' = count /\ iv_world s' = w.
Proof.
  intros Hl Hi Hv Hc Hw Hrun.
  eapply (RemoveInverseOps_loop_invariant isSameType isInverse
            (fun a => iv_opVec a = l /\ iv_count a = count /\ iv_world a = w));
    [| exact Hi | done | exact Hrun].
  intros a b Ha (Hav & Hac & Haw) Hab.
  destruct (RemoveInverseOps_body_cases isSameType isInverse a Ha)
    as [[Hd _] | (x & y & hit & w' & Hlt & Hx & Hy & Hp & Hb)]; [congruence |].
  rewrite pair_cancels_pure in Hp. injection Hp as <- <-.
  rewrite Hb in Hab. injection Hab as <-.
  rewrite Hav in Hlt, Hx, Hy.
  rewrite (Hl (Z.to_nat (iv_firstindex a)) x y); [done | lia | done | done].
Qed.

Lemma RemoveInverseOps_settled (l : list Op) (w : World) :
  settled c l -> RemoveInverseOps isSameType isInverse l w = Finished (l, 0, w).
Proof.
  intros Hl.
  destruct (RemoveInverseOps_run_finishes isSameType isInverse l w)
    as (n & s & Hrun & _).
  unfold RemoveInverseOps. rewrite Hrun.
  destruct (RemoveInverseOps_loop_settled l w 0 (S (length l)) 0 n
              (RemoveInverseOps_init l w) s) as (-> & -> & ->); try done.
Qed.

(** What [RemoveInverseOps] returns is settled, in an unchanged world. *)
Lemma RemoveInverseOps_result_settled (l ops' : list Op) (count : Z) (w w' : World) :
  RemoveInverseOps isSameType isInverse l w = Finished (ops', count, w') ->
  settled c ops' /\ w' = w.
Proof.
  unfold RemoveInverseOps, RemoveInverseOps_run.
  destruct (RemoveInverseOps_loop _ _ _ _ _) as [[n s] | |] eqn:Hrun; [|done|done].
  intros [= <- <- <-].
  destruct (RemoveInverseOps_loop_invariant isSameType isInverse
    (fun a => iv_world a = w /\
              forall (k : nat) (x y : Op),
                Z.of_nat k < iv_firstindex a ->
                iv_opVec a !! k = Some x -> iv_opVec a !! S k = Some y ->
                c x y = false)
    (S (length l)) 0 n (RemoveInverseOps_init l w) s)
    as ((Hw & Hbelow) & Hi & Hdone); [| | | exact Hrun |].
  - intros a b Ha (Haw & Hlow) Hab.
    destruct (RemoveInverseOps_body_cases isSameType isInverse a Ha)
      as [[Hd _] | (x & y & hit & w1 & Hlt & Hx & Hy & Hp & Hb)]; [congruence |].
    rewrite pair_cancels_pure in Hp. injection Hp as <- <-.
    rewrite Hb in Hab. injection Hab as <-.
    pose proof (size_minus_one_le (length (iv_opVec a))) as Hle.
    destruct (c x y) eqn:Hxy; simpl; (split; [done |]).
    + intros k u v Hk. unfold erase_range.
      assert (S k < Z.to_nat (iv_firstindex a))%nat by lia.
      rewrite !lookup_app_l by (rewrite length_take; lia).
      rewrite !lookup_take_lt by lia.
      apply Hlow. lia.
    + intros k u v Hk Hu Hv.
      destruct (decide (Z.of_nat k < iv_firstindex a)) as [|Hge]; [by eapply Hlow |].
      replace k with (Z.to_nat (iv_firstindex a)) in Hu, Hv by lia.
      congruence.
  - simpl. lia.
  - simpl. split; [done |]. intros k x y Hk. lia.
  - split; [|done]. intros k x y Hk. apply Hbelow.
    destruct (RemoveInverseOps_body_cases isSameType isInverse s Hi)
      as [[_ Hge] | (x' & y' & hit & w1 & _ & _ & _ & _ & Hb)]; [lia | congruence].
Qed.

Local Abbreviation quiet := (quiet noop c).

Local Abbreviation sweep := (OptimizeOpVec_loop isNoOp isSameType isInverse).
Local Abbreviation optimize :=
  (OptimizeOpVec isNoOp isSameType isInverse IsDebugLoggingEnabled SerializeOpVec).

(** On a quiet chain the first round removes nothing and leaves the loop. *)
Lemma OptimizeOpVec_loop_quiet (fuel rounds : nat) (st : OptState) :
  quiet (os_ops st) ->
  os_passes st <= MAX_OPTIMIZATION_PASSES ->
  sweep (S fuel) rounds st = Finished (S rounds, ExitBreak, st).
Proof.
  intros [Hn Hs] Hp. simpl.
  destruct (Z.leb_spec (os_passes st) MAX_OPTIMIZATION_PASSES); [|lia].
  rewrite RemoveNoOps_no_noop by done.
  rewrite RemoveInverseOps_settled by done.
  simpl. by destruct st.
Qed.

(** One round leaves a quiet chain; the loop ends in the round after. *)
Lemma OptimizeOpVec_loop_pure (fuel rounds : nat) (st : OptState) :
  os_passes st + 1 <= MAX_OPTIMIZATION_PASSES ->
  exists n st',
    sweep (S (S fuel)) rounds st = Finished (n, ExitBreak, st') /\
    quiet (os_ops st') /\
    os_world st' = os_world st /\
    os_passes st' <= os_passes st + 1.
Proof.
  intros Hp.
  change (sweep (S (S fuel)) rounds st) with
    (if os_passes st <=? MAX_OPTIMIZATION_PASSES then
       let '(ops1, noops, w1) := RemoveNoOps isNoOp (os_ops st) (os_world st) in
       match RemoveInverseOps isSameType isInverse ops1 w1 with
       | Finished (ops2, inverseops, w2) =>
           if (noops =? 0) && (inverseops =? 0) then
             Finished (S rounds, ExitBreak,
                       mkOptState ops2 w2 (os_total_noops st)
                                  (os_total_inverseops st) (os_passes st))
           else
             sweep (S fuel) (S rounds)
               (mkOptState ops2 w2
                           (os_total_noops st + noops)
                           (os_total_inverseops st + inverseops)
                           (os_passes st + 1))
       | OutOfFuel => OutOfFuel
       | OutOfBounds => OutOfBounds
       end
     else Finished (rounds, ExitCondition, st)).
  destruct (Z.leb_spec (os_passes st) MAX_OPTIMIZATION_PASSES); [|lia].
  unfold RemoveNoOps. rewrite RemoveNoOps_from_pure.
  set (ops1 := List.filter (fun op => negb (noop op)) (os_ops st)).
  destruct (RemoveInverseOps_finishes isSameType isInverse ops1 (os_world st))
    as (ops2 & inverseops & w2 & Hinv & Hsub & _).
  rewrite Hinv.
  destruct (RemoveInverseOps_result_settled _ _ _ _ _ Hinv) as [Hset ->].
  assert (Hq : quiet ops2).
  { split; [|done]. eapply no_noop_sublist; [done | apply filter_no_noop]. }
  destruct (_ && _).
  - eexists _, _. split; [reflexivity |]. simpl.
    split; [exact Hq |]. split; [done | lia].
  - rewrite OptimizeOpVec_loop_quiet by (simpl; done || lia).
    eexists _, _. split; [reflexivity |]. simpl.
    split; [exact Hq |]. split; [done | lia].
Qed.

(** Whatever the chain, the call returns a quiet chain after a round
    that removed nothing. *)
Lemma OptimizeOpVec_pure_result (ops : list Op) (w : World) :
  exists out,
    optimize ops w = Finished out /\
    quiet (out_ops out) /\
    out_world out = w /\
    out_exit out <> Some ExitCondition.
Proof.
  destruct ops as [|op ops].
  - eexists. split; [reflexivity |]. simpl.
    split; [|done]. split; [done |]. intros k a b _ Ha. done.
  - unfold OptimizeOpVec, OptimizeOpVec_fuel.
    change (S (Z.to_nat (MAX_OPTIMIZATION_PASSES + 1))) with (S (S 8)).
    destruct (OptimizeOpVec_loop_pure 8 0 (mkOptState (op :: ops) w 0 0 0))
      as (n & st' & -> & Hq & Hw & _); [simpl; unfold MAX_OPTIMIZATION_PASSES; lia |].
    eexists. split; [reflexivity |]. simpl.
    split; [exact Hq |]. split; done.
Qed.

(** On a quiet chain the call changes nothing and counts nothing. *)
Lemma OptimizeOpVec_pure_quiet (ops : list Op) (w : World) :
  quiet ops ->
  exists out,
    optimize ops w = Finished out /\
    out_ops out = ops /\
    out_world out = w /\
    out_total_noops out = 0 /\
    out_total_inverseops out = 0 /\
    out_passes out = 0.
Proof.
  intros Hq. destruct ops as [|op ops].
  - eexists. split; [reflexivity |]. done.
  - unfold OptimizeOpVec, OptimizeOpVec_fuel.
    rewrite OptimizeOpVec_loop_quiet; [| done | simpl; unfold MAX_OPTIMIZATION_PASSES; lia].
    eexists. split; [reflexivity |]. done.
Qed.

End PureFacts.

(** ** The loop of [RemoveInverseOps] and the cursor algorithm *)

Section CursorFacts.
Context {Op World : Type}.
Variable isSameType isInverse : Op -> Op -> World -> bool * World.

Local Abbreviation body := (RemoveInverseOps_body isSameType isInverse).
Local Abbreviation loop := (RemoveInverseOps_loop isSameType isInverse).
Local Abbreviation test := (pair_cancels isSameType isInverse).

Lemma RemoveInverseOps_body_cursor_step (s : InvState) :
  0 <= iv_firstindex s -> 0 <= iv_count s ->
  Z.of_nat (length (iv_opVec s)) <= INT_MAX + 1 ->
  cursor_step test (as_cursor s)
  = match body s with
    | Continue s' => Some (as_cursor s')
    | _ => None
    end.
Proof.
  intros Hi Hc Hlen. unfold cursor_step, as_cursor. simpl.
  destruct (RemoveInverseOps_body_cases isSameType isInverse s Hi)
    as [[-> Hge] | (x & y & hit & w' & Hlt & Hx & Hy & Hp & ->)].
  - rewrite size_minus_one_exact in Hge by done.
    rewrite (lookup_ge_None_2 _ (S _)) by lia.
    by destruct (_ !! _).
  - rewrite Hx, Hy, Hp. destruct hit; simpl; f_equal.
    + unfold erase_range. f_equal; [f_equal; f_equal; lia | lia | lia].
    + f_equal; lia.
Qed.

Lemma RemoveInverseOps_loop_cursor_scan (fuel iters n : nat) (s s' : InvState) :
  0 <= iv_firstindex s -> 0 <= iv_count s ->
  Z.of_nat (length (iv_opVec s)) <= INT_MAX + 1 ->
  loop fuel iters s = Finished (n, s') ->
  (iters <= n)%nat /\
  0 <= iv_count s' /\
  forall budget : nat,
    (n - iters <= budget)%nat ->
    cursor_scan test budget (as_cursor s) = as_cursor s' /\
    cursor_step test (as_cursor s') = None.
Proof.
  revert iters s. induction fuel as [|fuel IH]; intros iters s Hi Hc Hlen Hrun; [done |].
  simpl in Hrun.
  pose proof (RemoveInverseOps_body_cursor_step s Hi Hc Hlen) as Hstep.
  destruct (body s) as [|s1|] eqn:Hb; [| |done].
  - injection Hrun as <- <-. repeat split; [lia | done | | done].
    destruct budget; simpl; [done | by rewrite Hstep].
  - destruct (RemoveInverseOps_body_step isSameType isInverse s s1 Hi Hb)
      as ((Hi1 & _) & _ & _ & Hc1 & Hl1).
    destruct (IH (S iters) s1) as (Hn & Hc' & Hscan); [done | lia | lia | done |].
    repeat split; [lia | done | |].
    + destruct budget as [|budget]; [lia |].
      simpl. rewrite Hstep. apply Hscan. lia.
    + apply (Hscan n). lia.
Qed.

End CursorFacts.

(** ** The unit test of the source *)

Example RemoveInverseOps_unit_test_nested :
  RemoveInverseOps (World:=unit) (pure2 Sample.same) (pure2 Sample.inverse)
    Sample.nested tt
  = Finished ([], 2, tt).
Proof. reflexivity. Qed.

Example RemoveInverseOps_unit_test_staggered :
  RemoveInverseOps (World:=unit) (pure2 Sample.same) (pure2 Sample.inverse)
    Sample.staggered tt
  = Finished ([Sample.ExponentOp Sample.TRANSFORM_DIR_FORWARD], 2, tt).
Proof. reflexivity. Qed.

(** ** The diagnostic of the pass bound *)

(** [X12] The diagnostic is logged exactly when the loop was left by [break]
    with [passes = 8]; a loop left because its condition failed has
    [passes = 9] and logs no diagnostic. *)
Lemma OptimizeOpVec_diagnostic_iff
    (Op World : Type)
    (isNoOp : Op -> World -> bool * World)
    (isSameType isInverse : Op -> Op -> World -> bool * World)
    (debug : bool) (serialize : list Op -> Z -> string)
    (ops : list Op) (w : World) (out : Outcome) :
  OptimizeOpVec isNoOp isSameType isInverse debug serialize ops w = Finished out ->
  (existsb is_MsgMaxPasses (out_log out) = true <->
   out_exit out = Some ExitBreak /\ out_passes out = MAX_OPTIMIZATION_PASSES) /\
  (out_exit out = Some ExitCondition ->
   out_passes out = MAX_OPTIMIZATION_PASSES + 1 /\
   existsb is_MsgMaxPasses (out_log out) = false).
Proof.
  intros Hout.
  destruct (OptimizeOpVec_outcome isNoOp isSameType isInverse debug serialize ops w)
    as (out' & Hout' & _ & _ & _ & _ & Hlog & Hexit).
  rewrite Hout in Hout'. injection Hout' as <-.
  rewrite Hlog. unfold MAX_OPTIMIZATION_PASSES in *.
  destruct (out_exit out) as [[] |]; (split; [split |]).
  - intros ?%Z.eqb_eq. done.
  - intros [_ ->]. done.
  - done.
  - intros ?%Z.eqb_eq. lia.
  - intros [? _]. done.
  - intros _. split; [lia |]. apply Z.eqb_neq. lia.
  - intros ?%Z.eqb_eq. lia.
  - intros [? _]. done.
  - done.
Qed.

(** ** The properties of the optimizer *)

(** [C1] The pass loop is guarded by [passes <= MAX_OPTIMIZATION_PASSES]
    with [passes] counted from 0: on ten drifting operations it runs nine
    rounds, each of which removes an operation, and leaves with
    [passes = 9] while the tenth operation is still waiting to be removed. *)
Theorem OptimizeOpVec_ninth_round :
  exists out,
    Drifting.optimize false (seq 0 10) = Finished out /\
    out_rounds out = 9%nat /\
    out_passes out = 9 /\
    out_total_noops out = 9 /\
    out_total_inverseops out = 0 /\
    out_exit out = Some ExitCondition /\
    out_ops out = [9%nat].
Proof. eexists. split; [vm_compute; reflexivity |]. repeat split. Qed.

(** [C2] When the pass loop runs out of passes, [passes] is 9 and the
    test [passes == MAX_OPTIMIZATION_PASSES] does not hold: nothing is
    logged.  The diagnostic is logged when eight rounds removed something
    and the ninth removed nothing, that is, when the loop converged. *)
Theorem OptimizeOpVec_max_passes_diagnostic :
  (exists out,
     Drifting.optimize false (seq 0 10) = Finished out /\
     out_exit out = Some ExitCondition /\
     out_passes out = 9 /\
     out_log out = []) /\
  (exists out,
     Drifting.optimize false (seq 0 8) = Finished out /\
     out_exit out = Some ExitBreak /\
     out_passes out = 8 /\
     out_ops out = [] /\
     out_log out = [MsgMaxPasses 8]).
Proof.
  split; eexists; (split; [vm_compute; reflexivity |]); repeat split.
Qed.

(** [C3] Whatever the queries answer, and in whatever world, the cursor
    loop of [RemoveInverseOps] ends after at most as many bodies as the
    chain is long, and [OptimizeOpVec] returns after at most nine rounds. *)
Theorem OptimizeOpVec_terminates
    (Op World : Type)
    (isNoOp : Op -> World -> bool * World)
    (isSameType isInverse : Op -> Op -> World -> bool * World)
    (debug : bool) (serialize : list Op -> Z -> string)
    (ops : list Op) (w : World) :
  (exists n s,
     RemoveInverseOps_run isSameType isInverse ops w = Finished (n, s) /\
     RemoveInverseOps_body isSameType isInverse s = Done /\
     (n <= length ops)%nat) /\
  (exists out,
     OptimizeOpVec isNoOp isSameType isInverse debug serialize ops w = Finished out /\
     (out_rounds out <= 9)%nat).
Proof.
  split.
  - destruct (RemoveInverseOps_run_finishes isSameType isInverse ops w)
      as (n & s & Hrun & Hdone & Hn & _).
    by exists n, s.
  - destruct (OptimizeOpVec_outcome isNoOp isSameType isInverse debug serialize ops w)
      as (out & Hout & _ & _ & _ & _ & _ & Hexit).
    exists out. split; [done |].
    unfold MAX_OPTIMIZATION_PASSES in Hexit.
    destruct (out_exit out) as [[] |]; lia.
Qed.

(** [C4] On the empty chain [OptimizeOpVec] returns at once: the chain and
    the world are as they were, nothing is logged whether or not debug
    logging is enabled, and no round of the pass loop is run. *)
Theorem OptimizeOpVec_empty
    (Op World : Type)
    (isNoOp : Op -> World -> bool * World)
    (isSameType isInverse : Op -> Op -> World -> bool * World)
    (debug : bool) (serialize : list Op -> Z -> string) (w : World) :
  OptimizeOpVec isNoOp isSameType isInverse debug serialize [] w
  = Finished (mkOutcome [] w [] 0 None 0 0 0).
Proof. reflexivity. Qed.

(** [C5] [RemoveNoOps] keeps, in their order, the operations whose
    identity query is false, and returns the number of operations whose
    identity query is true. *)
Theorem RemoveNoOps_filter
    (Op World : Type) (noop : Op -> bool) (ops : list Op) (w : World) :
  RemoveNoOps (pure1 noop) ops w
  = (List.filter (fun op => negb (noop op)) ops,
     Z.of_nat (length (List.filter noop ops)), w).
Proof. unfold RemoveNoOps. by rewrite RemoveNoOps_from_pure. Qed.

(** [C6], as stated, fails: with a one-sided inverse query the pair
    [1; 2] is not mutually inverse, so the cursor algorithm with the mutual
    test keeps it, yet [RemoveInverseOps] removes it. *)
Lemma RemoveInverseOps_one_sided_pair :
  let claimed :=
    cancel_pairs (World:=unit)
      (mutual_inverse_test (pure2 OneSided.same) (pure2 OneSided.inverse))
      [1%nat; 2%nat] tt in
  RemoveInverseOps (pure2 OneSided.same) (pure2 OneSided.inverse) [1%nat; 2%nat] tt
  <> Finished (cu_chain claimed, Z.of_nat (cu_pairs claimed), cu_world claimed).
Proof. vm_compute. discriminate. Qed.

(** [C6], amended: [RemoveInverseOps] is the cursor algorithm whose test
    asks the operation at the cursor, and only it, whether its successor is
    of its type and is its inverse.  The scan starts at index 0 with no
    pair counted, ends with the cursor past the second-to-last index, and
    the count of pairs removed is returned. *)
Theorem RemoveInverseOps_cursor_scan
    (Op World : Type)
    (isSameType isInverse : Op -> Op -> World -> bool * World)
    (ops : list Op) (w : World) :
  Z.of_nat (length ops) <= INT_MAX + 1 ->
  let t := cancel_pairs (pair_cancels isSameType isInverse) ops w in
  cursor_step (pair_cancels isSameType isInverse) t = None /\
  RemoveInverseOps isSameType isInverse ops w
  = Finished (cu_chain t, Z.of_nat (cu_pairs t), cu_world t).
Proof.
  intros Hlen t.
  destruct (RemoveInverseOps_run_finishes isSameType isInverse ops w)
    as (n & s & Hrun & _ & Hn & _).
  destruct (RemoveInverseOps_loop_cursor_scan isSameType isInverse
              (S (length ops)) 0 n (RemoveInverseOps_init ops w) s)
    as (_ & Hc & Hscan); simpl; [lia | lia | done | done |].
  destruct (Hscan (length ops)) as [Ht Hstop]; [lia |].
  change (cursor_scan (pair_cancels isSameType isInverse) (length ops)
            (as_cursor (RemoveInverseOps_init ops w))) with t in Ht.
  rewrite Ht. split; [done |].
  unfold RemoveInverseOps. rewrite Hrun. simpl.
  by rewrite Z2Nat.id.
Qed.

Lemma RemoveInverseOps_cursor_scan_nested :
  Z.of_nat (length Sample.nested) <= INT_MAX + 1 /\
  RemoveInverseOps (World:=unit) (pure2 Sample.same) (pure2 Sample.inverse)
    Sample.nested tt
  = Finished ([], 2, tt).
Proof.
  assert (H : Z.of_nat (length Sample.nested) <= INT_MAX + 1) by (vm_compute; discriminate).
  split; [exact H |].
  exact (proj2 (RemoveInverseOps_cursor_scan Sample.SampleOp unit
                  (pure2 Sample.same) (pure2 Sample.inverse) Sample.nested tt H)).
Defined.

(** [C7] On a chain of at most one operation [RemoveInverseOps] runs no
    body, hence asks nothing, and returns 0 with chain and world as they
    were.  In every state a run goes through the cursor is not negative,
    the two accesses of the body are inside the vector, and no access falls
    outside it; the bound of the loop on the empty chain is -1. *)
Theorem RemoveInverseOps_safe
    (Op World : Type)
    (isSameType isInverse : Op -> Op -> World -> bool * World)
    (ops : list Op) (w : World) :
  ((length ops <= 1)%nat ->
   RemoveInverseOps_run isSameType isInverse ops w
   = Finished (0%nat, RemoveInverseOps_init ops w) /\
   RemoveInverseOps isSameType isInverse ops w = Finished (ops, 0, w)) /\
  (forall s : InvState,
     RemoveInverseOps_reaches isSameType isInverse (RemoveInverseOps_init ops w) s ->
     0 <= iv_firstindex s /\
     RemoveInverseOps_body isSameType isInverse s <> Fault /\
     (iv_firstindex s < size_minus_one (length (iv_opVec s)) ->
      iv_firstindex s + 1 < Z.of_nat (length (iv_opVec s)))) /\
  size_minus_one 0 = -1.
Proof.
  split; [| split; [| reflexivity]].
  - intros Hlen. destruct ops as [|op [|op' ops]]; simpl in Hlen; [| | lia].
    + by split.
    + by split.
  - intros s Hreach.
    assert (Hi : 0 <= iv_firstindex s).
    { induction Hreach as [|s' s'' _ IH Hstep]; simpl; [lia |].
      by destruct (RemoveInverseOps_body_step isSameType isInverse s' s'' IH Hstep)
        as ((? & _) & _). }
    split; [done |]. split.
    + by apply RemoveInverseOps_body_no_fault.
    + pose proof (size_minus_one_le (length (iv_opVec s))). lia.
Qed.

Lemma RemoveInverseOps_safe_single :
  RemoveInverseOps (World:=unit) (pure2 Sample.same) (pure2 Sample.inverse)
    [Sample.LogOp Sample.TRANSFORM_DIR_FORWARD] tt
  = Finished ([Sample.LogOp Sample.TRANSFORM_DIR_FORWARD], 0, tt) /\
  0 <= iv_firstindex
         (RemoveInverseOps_init [Sample.LogOp Sample.TRANSFORM_DIR_FORWARD] tt).
Proof.
  destruct (RemoveInverseOps_safe Sample.SampleOp unit
              (pure2 Sample.same) (pure2 Sample.inverse)
              [Sample.LogOp Sample.TRANSFORM_DIR_FORWARD] tt)
    as (Hshort & Hrun & _).
  split.
  - apply Hshort. simpl. lia.
  - apply (Hrun (RemoveInverseOps_init [Sample.LogOp Sample.TRANSFORM_DIR_FORWARD] tt)).
    apply reaches_here.
Defined.

(** [C8] What [OptimizeOpVec] leaves is a sub-chain of the chain it was
    given: entries are deleted, never reordered, duplicated or replaced;
    so the chain does not grow.  A chain with no identity operation and no
    adjacent pair that cancels is left exactly as it was. *)
Theorem OptimizeOpVec_sublist :
  (forall (Op World : Type)
          (isNoOp : Op -> World -> bool * World)
          (isSameType isInverse : Op -> Op -> World -> bool * World)
          (debug : bool) (serialize : list Op -> Z -> string)
          (ops : list Op) (w : World),
     exists out,
       OptimizeOpVec isNoOp isSameType isInverse debug serialize ops w = Finished out /\
       out_ops out `sublist_of` ops /\
       (length (out_ops out) <= length ops)%nat) /\
  (forall (Op World : Type)
          (noop : Op -> bool) (same inverse : Op -> Op -> bool)
          (debug : bool) (serialize : list Op -> Z -> string)
          (ops : list Op) (w : World),
     no_noop noop ops = true ->
     no_inverse_pair (cancels same inverse) ops = true ->
     exists out,
       OptimizeOpVec (pure1 noop) (pure2 same) (pure2 inverse) debug serialize ops w
       = Finished out /\
       out_ops out = ops).
Proof.
  split.
  - intros Op World isNoOp isSameType isInverse debug serialize ops w.
    destruct (OptimizeOpVec_outcome isNoOp isSameType isInverse debug serialize ops w)
      as (out & Hout & Hsub & _).
    exists out. repeat split; [done | done |]. by apply sublist_length.
  - intros Op World noop same inverse debug serialize ops w Hn Hp.
    destruct (OptimizeOpVec_pure_quiet noop same inverse debug serialize ops w)
      as (out & Hout & Hops & _).
    + split; [done |]. by apply no_inverse_pair_settled.
    + by exists out.
Qed.

Lemma OptimizeOpVec_sublist_unrelated :
  exists out,
    OptimizeOpVec (World:=unit) (pure1 Sample.noop) (pure2 Sample.same)
      (pure2 Sample.inverse) true Sample.serialize
      [Sample.ExponentOp Sample.TRANSFORM_DIR_FORWARD;
       Sample.LogOp Sample.TRANSFORM_DIR_FORWARD] tt
    = Finished out /\
    out_ops out = [Sample.ExponentOp Sample.TRANSFORM_DIR_FORWARD;
                   Sample.LogOp Sample.TRANSFORM_DIR_FORWARD].
Proof.
  apply (proj2 OptimizeOpVec_sublist Sample.SampleOp unit); reflexivity.
Defined.

(** [C9], as stated, fails for queries whose answers drift: on the chain
    [1] the first call converges in its first round with nothing removed,
    and the second call, on the chain and in the world the first one left,
    removes the operation. *)
Lemma OptimizeOpVec_second_call_removes :
  ~ (forall first second : Outcome,
       Drifting.optimize false [1%nat] = Finished first ->
       out_exit first = Some ExitBreak ->
       OptimizeOpVec Drifting.isNoOp Drifting.isSameType Drifting.isInverse
         false Drifting.serialize (out_ops first) (out_world first)
       = Finished second ->
       out_ops second = out_ops first /\
       out_total_noops second = 0 /\
       out_total_inverseops second = 0).
Proof.
  intros Hidem.
  destruct (Hidem (mkOutcome [1%nat] [1%nat] [] 1 (Some ExitBreak) 0 0 0)
                  (mkOutcome [] [1%nat; 1%nat] [] 2 (Some ExitBreak) 1 1 0))
    as (Hops & _); [reflexivity | reflexivity | reflexivity |].
  discriminate Hops.
Qed.

(** [C9], amended: for queries that are functions of the operations, a
    call of [OptimizeOpVec] converges, and a second call on what it left
    removes nothing: the chain is unchanged, and the second call counts no
    identity operation, no inverse pair and no pass. *)
Theorem OptimizeOpVec_idempotent
    (Op World : Type)
    (noop : Op -> bool) (same inverse : Op -> Op -> bool)
    (debug : bool) (serialize : list Op -> Z -> string)
    (ops : list Op) (w : World) :
  exists first second,
    OptimizeOpVec (pure1 noop) (pure2 same) (pure2 inverse) debug serialize ops w
    = Finished first /\
    out_exit first <> Some ExitCondition /\
    OptimizeOpVec (pure1 noop) (pure2 same) (pure2 inverse) debug serialize
      (out_ops first) (out_world first)
    = Finished second /\
    out_ops second = out_ops first /\
    out_total_noops second = 0 /\
    out_total_inverseops second = 0 /\
    out_passes second = 0.
Proof.
  destruct (OptimizeOpVec_pure_result noop same inverse debug serialize ops w)
    as (first & Hfirst & Hq & Hw & Hexit).
  destruct (OptimizeOpVec_pure_quiet noop same inverse debug serialize
              (out_ops first) (out_world first) Hq)
    as (second & Hsecond & Hops & _ & Hn & Hi & Hp).
  by exists first, second.
Qed.

(** [C10] [RemoveNoOps] shortens the chain by the count it returns,
    [RemoveInverseOps] by twice the count it returns, and after
    [OptimizeOpVec] the length of the chain is the original length less
    the identity operations removed less twice the inverse pairs removed. *)
Theorem OptimizeOpVec_lengths
    (Op World : Type)
    (isNoOp : Op -> World -> bool * World)
    (isSameType isInverse : Op -> Op -> World -> bool * World)
    (debug : bool) (serialize : list Op -> Z -> string)
    (ops : list Op) (w : World) :
  Z.of_nat (length (RemoveNoOps isNoOp ops w).1.1)
  = Z.of_nat (length ops) - (RemoveNoOps isNoOp ops w).1.2 /\
  (exists ops' count w',
     RemoveInverseOps isSameType isInverse ops w = Finished (ops', count, w') /\
     Z.of_nat (length ops') = Z.of_nat (length ops) - 2 * count) /\
  (exists out,
     OptimizeOpVec isNoOp isSameType isInverse debug serialize ops w = Finished out /\
     Z.of_nat (length (out_ops out))
     = Z.of_nat (length ops) - out_total_noops out - 2 * out_total_inverseops out).
Proof.
  split; [| split].
  - by destruct (RemoveNoOps_shape isNoOp ops w) as (_ & _ & ?).
  - destruct (RemoveInverseOps_finishes isSameType isInverse ops w)
      as (ops' & count & w' & Hrun & _ & _ & Hlen).
    by exists ops', count, w'.
  - destruct (OptimizeOpVec_outcome isNoOp isSameType isInverse debug serialize ops w)
      as (out & Hout & _ & Hlen & _).
    by exists out.
Qed.

(** ** The cursor loop as a stack, for queries that are functions *)

Section StackFacts.
Context {Op World : Type}.
Variable same inverse : Op -> Op -> bool.

Local Abbreviation isSameType := (pure2 (World:=World) same).
Local Abbreviation isInverse := (pure2 (World:=World) inverse).
Local Abbreviation c := (cancels same inverse).
Local Abbreviation loop := (RemoveInverseOps_loop isSameType isInverse).

Lemma RemoveInverseOps_loop_unfold (fuel iters : nat) (s : InvState) :
  loop (S fuel) iters s
  = match RemoveInverseOps_body isSameType isInverse s with
    | Done => Finished (iters, s)
    | Continue s' => loop fuel (S iters) s'
    | Fault => OutOfBounds
    end.
Proof. reflexivity. Qed.

(** With the operations up to the cursor as the stack, the loop ends on
    the stack that the remaining operations leave. *)
Lemma RemoveInverseOps_loop_stack (fuel iters n : nat) (top : Op)
      (below rest : list Op) (count : Z) (w : World) (s' : InvState) :
  Z.of_nat (length (rev (top :: below) ++ rest)) <= INT_MAX + 1 ->
  loop fuel iters
       (mkInvState (rev (top :: below) ++ rest) count (Z.of_nat (length below)) w)
  = Finished (n, s') ->
  iv_opVec s' = rev (fold_left (push_or_cancel c) rest (top :: below)).
Proof.
  revert iters top below rest count.
  induction fuel as [|fuel IH]; intros iters top below rest count Hlen Hrun; [done |].
  set (s := mkInvState (rev (top :: below) ++ rest) count (Z.of_nat (length below)) w) in *.
  rewrite RemoveInverseOps_loop_unfold in Hrun.
  assert (Hvec : iv_opVec s = rev below ++ top :: rest).
  { simpl. by rewrite <- app_assoc. }
  assert (Hsize : length (iv_opVec s) = (length below + S (length rest))%nat).
  { rewrite Hvec, length_app, length_rev. done. }
  assert (HL : Z.of_nat (length below) + 1 + Z.of_nat (length rest) <= INT_MAX + 1).
  { clear -Hlen. rewrite length_app, length_rev in Hlen. simpl in Hlen. lia. }
  destruct (RemoveInverseOps_body_cases isSameType isInverse s)
    as [[Hdone Hge] | (x & y & hit & w' & Hlt & Hx & Hy & Hp & Hb)]; [simpl; lia | |].
  - rewrite Hdone in Hrun. injection Hrun as <- <-.
    rewrite size_minus_one_exact in Hge by (simpl in *; lia).
    rewrite Hsize in Hge. simpl in Hge.
    destruct rest as [|? ?]; simpl in Hge; [|lia].
    simpl. by rewrite app_nil_r.
  - rewrite Hb in Hrun. clear Hb.
    rewrite size_minus_one_exact in Hlt by (simpl in *; lia).
    rewrite Hsize in Hlt. simpl in Hlt.
    destruct rest as [|next rest]; simpl in Hlt; [lia |].
    rewrite Hvec in Hx, Hy. simpl in Hx, Hy.
    rewrite Nat2Z.id in Hx, Hy.
    rewrite list_lookup_middle in Hx by (by rewrite length_rev).
    injection Hx as <-.
    replace (rev below ++ top :: next :: rest)
      with ((rev below ++ [top]) ++ next :: rest) in Hy by (by rewrite <- app_assoc).
    rewrite list_lookup_middle in Hy by (rewrite length_app, length_rev; simpl; lia).
    injection Hy as <-.
    rewrite pair_cancels_pure in Hp. injection Hp as <- <-.
    simpl fold_left. destruct (c top next) eqn:Hc.
    + assert (Herase : erase_range (iv_opVec s) (iv_firstindex s) (iv_firstindex s + 2)
                       = rev below ++ rest).
      { unfold erase_range. rewrite Hvec. simpl iv_firstindex.
        rewrite Nat2Z.id.
        replace (Z.to_nat (Z.of_nat (length below) + 2)) with (length below + 2)%nat by lia.
        rewrite take_app_length' by (by rewrite length_rev).
        replace (rev below ++ top :: next :: rest)
          with ((rev below ++ [top; next]) ++ rest) by (by rewrite <- app_assoc).
        rewrite drop_app_length' by (rewrite length_app, length_rev; simpl; lia).
        done. }
      rewrite Herase in Hrun. simpl iv_firstindex in Hrun. simpl iv_count in Hrun.
      destruct below as [|top' below'].
      * simpl in Hrun. destruct rest as [|first rest].
        -- destruct fuel; [done |]. by injection Hrun as <- <-.
        -- eapply (IH (S iters) first [] rest (count + 1)); [|exact Hrun].
           clear -HL. simpl in *. lia.
      * replace (Z.max 0 (Z.of_nat (length (top' :: below')) - 1))
          with (Z.of_nat (length below')) in Hrun by (simpl; lia).
        eapply (IH (S iters) top' below' rest (count + 1)); [|exact Hrun].
        clear -HL. rewrite length_app, length_rev. simpl in *. lia.
    + replace (iv_opVec s) with (rev (next :: top :: below) ++ rest) in Hrun
        by (rewrite Hvec; simpl; by rewrite <- !app_assoc).
      replace (iv_firstindex s + 1) with (Z.of_nat (length (top :: below))) in Hrun
        by (simpl; lia).
      eapply (IH (S iters) next (top :: below) rest count); [|exact Hrun].
      clear -HL. rewrite length_app, length_rev. simpl in *. lia.
Qed.

(** [RemoveInverseOps] returns the stack that the chain leaves. *)
Lemma RemoveInverseOps_pure_stack (ops : list Op) (w : World) :
  Z.of_nat (length ops) <= INT_MAX + 1 ->
  exists count,
    RemoveInverseOps isSameType isInverse ops w
    = Finished (cancel_stack c ops, count, w) /\
    0 <= count /\
    2 * count = Z.of_nat (length ops) - Z.of_nat (length (cancel_stack c ops)).
Proof.
  intros Hlen.
  destruct (RemoveInverseOps_finishes isSameType isInverse ops w)
    as (ops' & count & w' & Hrun & _ & Hc & Hl).
  destruct (RemoveInverseOps_result_settled same inverse _ _ _ _ _ Hrun) as [_ ->].
  assert (Hops : ops' = cancel_stack c ops).
  { revert Hrun. unfold RemoveInverseOps, RemoveInverseOps_run.
    destruct (RemoveInverseOps_loop _ _ _ _ _) as [[n s] | |] eqn:Hloop; [|done|done].
    intros [= <- _]. destruct ops as [|op ops].
    - simpl in Hloop. by injection Hloop as <- <-.
    - apply (RemoveInverseOps_loop_stack _ _ _ op [] ops 0 w s) in Hloop; [done |].
      simpl in *. lia. }
  subst ops'. exists count. repeat split; [done | done | lia].
Qed.

(** Operations no two neighbours of which cancel are all pushed. *)
Lemma fold_push_all (ops stack : list Op) :
  no_inverse_pair c (rev stack ++ ops) = true ->
  fold_left (push_or_cancel c) ops stack = rev ops ++ stack.
Proof.
  revert stack. induction ops as [|op ops IH]; intros stack Hfree; [done |].
  simpl fold_left.
  assert (Hpush : push_or_cancel c stack op = op :: stack).
  { destruct stack as [|top below]; [done |]. simpl.
    rewrite (no_inverse_pair_lookup same inverse _ (length below) top op Hfree); [done | |].
    - simpl. rewrite <- app_assoc. apply list_lookup_middle. by rewrite length_rev.
    - simpl. rewrite <- app_assoc.
      replace (rev below ++ [top] ++ op :: ops)
        with ((rev below ++ [top]) ++ op :: ops) by (by rewrite <- app_assoc).
      apply list_lookup_middle. rewrite length_app, length_rev. simpl. lia. }
  rewrite Hpush, IH.
  - simpl. by rewrite <- app_assoc.
  - simpl. by rewrite <- app_assoc.
Qed.

(** Operations that each cancel the top of the stack pop it. *)
Lemma fold_pop_all (pairs : list (Op * Op)) (stack : list Op) :
  Forall (fun p => c p.1 p.2 = true) pairs ->
  fold_left (push_or_cancel c) (map snd pairs) (map fst pairs ++ stack) = stack.
Proof.
  induction 1 as [|[a b] pairs Hab _ IH]; [done |].
  simpl in *. by rewrite Hab.
Qed.

Lemma settled_no_inverse_pair (l : list Op) :
  Z.of_nat (length l) <= INT_MAX + 1 ->
  settled c l -> no_inverse_pair c l = true.
Proof.
  intros Hlen Hs.
  assert (Hall : forall (k : nat) (a b : Op),
             l !! k = Some a -> l !! S k = Some b -> c a b = false).
  { intros k a b Ha Hb. apply (Hs k a b); [| done | done].
    rewrite size_minus_one_exact by done.
    apply lookup_lt_Some in Hb. lia. }
  clear Hlen Hs. induction l as [|x [|y l] IH]; [done | done |].
  change (negb (c x y) && no_inverse_pair c (y :: l) = true).
  rewrite (Hall 0%nat x y) by done. simpl negb. simpl andb.
  apply IH. intros k a b. apply (Hall (S k)).
Qed.

End StackFacts.

(** ** More on the scheduler *)

Section SchedulerProgress.
Context {Op World : Type}.
Variable isNoOp : Op -> World -> bool * World.
Variable isSameType isInverse : Op -> Op -> World -> bool * World.
Variable IsDebugLoggingEnabled : bool.
Variable SerializeOpVec : list Op -> Z -> string.

Local Abbreviation sweep := (OptimizeOpVec_loop isNoOp isSameType isInverse).

(** Every counted pass removed something. *)
Lemma OptimizeOpVec_loop_progress (fuel rounds n : nat) (e : LoopExit)
      (st st' : OptState) :
  sweep fuel rounds st = Finished (n, e, st') ->
  os_passes st' - os_passes st
  <= (os_total_noops st' - os_total_noops st)
     + (os_total_inverseops st' - os_total_inverseops st).
Proof.
  revert rounds st. induction fuel as [|fuel IH]; intros rounds st Hrun; [done |].
  simpl in Hrun.
  destruct (os_passes st <=? MAX_OPTIMIZATION_PASSES).
  - destruct (RemoveNoOps_shape isNoOp (os_ops st) (os_world st)) as (_ & Hc1 & _).
    destruct (RemoveNoOps isNoOp (os_ops st) (os_world st)) as [[ops1 noops] w1].
    simpl in Hc1.
    destruct (RemoveInverseOps_finishes isSameType isInverse ops1 w1)
      as (ops2 & inverseops & w2 & Hinv & _ & Hc2 & _).
    rewrite Hinv in Hrun.
    destruct ((noops =? 0) && (inverseops =? 0)) eqn:Hzero.
    + injection Hrun as <- <- <-. simpl. lia.
    + apply IH in Hrun. simpl in Hrun.
      apply andb_false_iff in Hzero as [Hz | Hz]; apply Z.eqb_neq in Hz; lia.
  - injection Hrun as <- <- <-. lia.
Qed.

(** The passes counted do not exceed the length of the chain, and the
    log is made of the opening messages, the diagnostic and the summary. *)
Lemma OptimizeOpVec_passes_log (ops : list Op) (w : World) :
  exists out,
    OptimizeOpVec isNoOp isSameType isInverse IsDebugLoggingEnabled SerializeOpVec ops w
    = Finished out /\
    out_passes out <= Z.of_nat (length ops) /\
    (ops <> [] ->
     out_log out
     = (if IsDebugLoggingEnabled
        then [MsgOptimizing; MsgSerialized (SerializeOpVec ops 4)] else [])
       ++ (if out_passes out =? MAX_OPTIMIZATION_PASSES
           then [MsgMaxPasses (out_passes out)] else [])
       ++ (if IsDebugLoggingEnabled
           then [MsgSummary (length ops) (length (out_ops out)) (out_passes out)
                            (out_total_noops out) (out_total_inverseops out)
                            (SerializeOpVec (out_ops out) 4)]
           else [])).
Proof.
  destruct ops as [|op ops].
  - eexists. split; [reflexivity |]. simpl. split; [lia | done].
  - unfold OptimizeOpVec.
    destruct (OptimizeOpVec_loop_finishes isNoOp isSameType isInverse
                OptimizeOpVec_fuel 0 (mkOptState (op :: ops) w 0 0 0))
      as (n & e & st' & Hrun & _ & Hlen & Hn & Hi & _).
    { simpl. unfold MAX_OPTIMIZATION_PASSES. lia. }
    { simpl. unfold OptimizeOpVec_fuel, MAX_OPTIMIZATION_PASSES. lia. }
    pose proof (OptimizeOpVec_loop_progress _ _ _ _ _ _ Hrun) as Hprog.
    rewrite Hrun. eexists. split; [reflexivity |].
    simpl in *. split; [lia | done].
Qed.

End SchedulerProgress.

Section PureScheduler.
Context {Op World : Type}.
Variable noop : Op -> bool.
Variable same inverse : Op -> Op -> bool.
Variable IsDebugLoggingEnabled : bool.
Variable SerializeOpVec : list Op -> Z -> string.

Local Abbreviation isNoOp := (pure1 (World:=World) noop).
Local Abbreviation isSameType := (pure2 (World:=World) same).
Local Abbreviation isInverse := (pure2 (World:=World) inverse).
Local Abbreviation c := (cancels same inverse).
Local Abbreviation sweep := (OptimizeOpVec_loop isNoOp isSameType isInverse).

(** The first round does all the work: what the loop leaves is what
    [RemoveInverseOps] makes of the chain without its identities. *)
Lemma OptimizeOpVec_loop_pure_closed (fuel rounds : nat) (st : OptState) :
  os_passes st + 1 <= MAX_OPTIMIZATION_PASSES ->
  exists ops2 inverseops n st',
    RemoveInverseOps isSameType isInverse
      (List.filter (fun op => negb (noop op)) (os_ops st)) (os_world st)
    = Finished (ops2, inverseops, os_world st) /\
    sweep (S (S fuel)) rounds st = Finished (n, ExitBreak, st') /\
    os_ops st' = ops2 /\
    os_world st' = os_world st /\
    os_total_noops st'
    = os_total_noops st + Z.of_nat (length (List.filter noop (os_ops st))) /\
    os_total_inverseops st' = os_total_inverseops st + inverseops /\
    os_passes st <= os_passes st' <= os_passes st + 1 /\
    (rounds < n <= rounds + 2)%nat.
Proof.
  intros Hp.
  change (sweep (S (S fuel)) rounds st) with
    (if os_passes st <=? MAX_OPTIMIZATION_PASSES then
       let '(ops1, noops, w1) := RemoveNoOps isNoOp (os_ops st) (os_world st) in
       match RemoveInverseOps isSameType isInverse ops1 w1 with
       | Finished (ops2, inverseops, w2) =>
           if (noops =? 0) && (inverseops =? 0) then
             Finished (S rounds, ExitBreak,
                       mkOptState ops2 w2 (os_total_noops st)
                                  (os_total_inverseops st) (os_passes st))
           else
             sweep (S fuel) (S rounds)
               (mkOptState ops2 w2
                           (os_total_noops st + noops)
                           (os_total_inverseops st + inverseops)
                           (os_passes st + 1))
       | OutOfFuel => OutOfFuel
       | OutOfBounds => OutOfBounds
       end
     else Finished (rounds, ExitCondition, st)).
  destruct (Z.leb_spec (os_passes st) MAX_OPTIMIZATION_PASSES); [|lia].
  unfold RemoveNoOps. rewrite RemoveNoOps_from_pure.
  set (ops1 := List.filter (fun op => negb (noop op)) (os_ops st)).
  destruct (RemoveInverseOps_finishes isSameType isInverse ops1 (os_world st))
    as (ops2 & inverseops & w2 & Hinv & Hsub & _).
  destruct (RemoveInverseOps_result_settled same inverse _ _ _ _ _ Hinv) as [Hset ->].
  assert (Hq : quiet noop c ops2).
  { split; [|done]. eapply no_noop_sublist; [done | apply filter_no_noop]. }
  exists ops2, inverseops. rewrite Hinv.
  destruct ((0 + Z.of_nat (length (List.filter noop (os_ops st))) =? 0)
            && (inverseops =? 0)) eqn:Hzero.
  - apply andb_prop in Hzero as [Hn Hi]. apply Z.eqb_eq in Hn, Hi.
    eexists _, _. split; [done |]. split; [reflexivity |]. simpl.
    repeat split; try done; lia.
  - rewrite (OptimizeOpVec_loop_quiet noop same inverse) by (simpl; done || lia).
    eexists _, _. split; [done |]. split; [reflexivity |]. simpl.
    repeat split; try done; lia.
Qed.

Lemma OptimizeOpVec_pure_closed (ops : list Op) (w : World) :
  exists ops2 inverseops out,
    RemoveInverseOps isSameType isInverse
      (List.filter (fun op => negb (noop op)) ops) w
    = Finished (ops2, inverseops, w) /\
    OptimizeOpVec isNoOp isSameType isInverse IsDebugLoggingEnabled SerializeOpVec ops w
    = Finished out /\
    out_ops out = ops2 /\
    out_world out = w /\
    out_total_noops out = Z.of_nat (length (List.filter noop ops)) /\
    out_total_inverseops out = inverseops /\
    0 <= out_passes out <= 1 /\
    (out_rounds out <= 2)%nat /\
    existsb is_MsgMaxPasses (out_log out) = false.
Proof.
  destruct ops as [|op ops].
  - eexists _, _, _. split; [reflexivity |]. split; [reflexivity |].
    simpl. repeat split; try done; lia.
  - unfold OptimizeOpVec, OptimizeOpVec_fuel.
    change (S (Z.to_nat (MAX_OPTIMIZATION_PASSES + 1))) with (S (S 8)).
    destruct (OptimizeOpVec_loop_pure_closed 8 0 (mkOptState (op :: ops) w 0 0 0))
      as (ops2 & inverseops & n & st' & Hinv & -> & Hops & Hw & Hn & Hi & Hp & Hr);
      [simpl; unfold MAX_OPTIMIZATION_PASSES; lia |].
    simpl in *. exists ops2, inverseops. eexists.
    split; [done |]. split; [reflexivity |]. simpl.
    repeat split; try done; try lia.
    assert (Hne : (os_passes st' =? MAX_OPTIMIZATION_PASSES) = false).
    { apply Z.eqb_neq. unfold MAX_OPTIMIZATION_PASSES. lia. }
    rewrite Hne. by destruct IsDebugLoggingEnabled.
Qed.

End PureScheduler.

(** ** Chains of operations of different types *)

Section OtherTypes.
Context {Op World : Type}.
Variable isSameType : Op -> Op -> World -> bool * World.
Hypothesis never_same : forall a b w, (isSameType a b w).1 = false.

Lemma pair_cancels_other_types (isInverse : Op -> Op -> World -> bool * World)
      (a b : Op) (w : World) :
  pair_cancels isSameType isInverse a b w = (false, (isSameType a b w).2).
Proof.
  unfold pair_cancels. pose proof (never_same a b w) as Hs.
  destruct (isSameType a b w) as [s w1]. simpl in Hs. by subst s.
Qed.

Lemma RemoveInverseOps_loop_other_types
      (isInverse isInverse' : Op -> Op -> World -> bool * World)
      (fuel iters : nat) (s : InvState) :
  RemoveInverseOps_loop isSameType isInverse fuel iters s
  = RemoveInverseOps_loop isSameType isInverse' fuel iters s.
Proof.
  revert iters s. induction fuel as [|fuel IH]; intros iters s; [done |].
  simpl.
  assert (Hbody : RemoveInverseOps_body isSameType isInverse s
                  = RemoveInverseOps_body isSameType isInverse' s).
  { unfold RemoveInverseOps_body.
    destruct (_ <? _); [|done].
    destruct (vec_at _ _) as [x|]; [|done].
    destruct (vec_at _ _) as [y|]; [|done].
    by rewrite !pair_cancels_other_types. }
  rewrite Hbody. destruct (RemoveInverseOps_body isSameType isInverse' s); auto.
Qed.

Lemma RemoveInverseOps_loop_untouched
      (isInverse : Op -> Op -> World -> bool * World)
      (fuel iters n : nat) (s s' : InvState) :
  0 <= iv_firstindex s ->
  RemoveInverseOps_loop isSameType isInverse fuel iters s = Finished (n, s') ->
  iv_opVec s' = iv_opVec s /\ iv_count s' = iv_count s.
Proof.
  intros Hi Hrun.
  eapply (RemoveInverseOps_loop_invariant isSameType isInverse
            (fun a => iv_opVec a = iv_opVec s /\ iv_count a = iv_count s));
    [| exact Hi | done | exact Hrun].
  intros a b Ha (Hv & Hc) Hab.
  destruct (RemoveInverseOps_body_cases isSameType isInverse a Ha)
    as [[Hd _] | (x & y & hit & w' & _ & _ & _ & Hp & Hb)]; [congruence |].
  rewrite pair_cancels_other_types in Hp. injection Hp as <- <-.
  rewrite Hb in Hab. by injection Hab as <-.
Qed.

End OtherTypes.

(** ** Further properties of the passes *)

(** [X1] [RemoveNoOps] asks the identity query of every operation of the
    chain exactly once, from the front to the back. *)
Theorem RemoveNoOps_asks_each_once
    (Op : Type) (p : Op -> bool) (ops asked : list Op) :
  RemoveNoOps (recorded p) ops asked
  = (List.filter (fun op => negb (p op)) ops,
     Z.of_nat (length (List.filter p ops)),
     rev ops ++ asked).
Proof.
  unfold RemoveNoOps.
  assert (H : forall rest count seen,
             RemoveNoOps_from (recorded p) rest count seen
             = (List.filter (fun op => negb (p op)) rest,
                count + Z.of_nat (length (List.filter p rest)),
                rev rest ++ seen)).
  { induction rest as [|op rest IH]; intros count seen; simpl.
    - do 2 f_equal. lia.
    - unfold recorded at 1. rewrite <- app_assoc. simpl.
      destruct (p op); simpl; rewrite IH; [do 2 f_equal; lia | done]. }
  by rewrite H.
Qed.

(** [X2] For an identity query that is a function, what [RemoveNoOps]
    leaves holds no identity operation, and a second call removes nothing. *)
Theorem RemoveNoOps_idempotent
    (Op World : Type) (noop : Op -> bool) (ops : list Op) (w : World) :
  no_noop noop (RemoveNoOps (pure1 noop) ops w).1.1 = true /\
  RemoveNoOps (pure1 noop) (RemoveNoOps (pure1 noop) ops w).1.1 w
  = ((RemoveNoOps (pure1 noop) ops w).1.1, 0, w).
Proof.
  unfold RemoveNoOps at 1 3 4. rewrite RemoveNoOps_from_pure. simpl.
  split; [apply filter_no_noop |].
  apply RemoveNoOps_no_noop, filter_no_noop.
Qed.

(** [X3] For queries that are functions, [RemoveInverseOps] returns the
    stack reduction of the chain: operations are pushed from the front, and
    an operation that cancels the top of the stack pops it instead.  The
    count is half the number of operations that went. *)
Theorem RemoveInverseOps_cancel_stack
    (Op World : Type) (same inverse : Op -> Op -> bool)
    (ops : list Op) (w : World) :
  Z.of_nat (length ops) <= INT_MAX + 1 ->
  exists count,
    RemoveInverseOps (pure2 same) (pure2 inverse) ops w
    = Finished (cancel_stack (cancels same inverse) ops, count, w) /\
    2 * count
    = Z.of_nat (length ops) - Z.of_nat (length (cancel_stack (cancels same inverse) ops)).
Proof.
  intros Hlen.
  destruct (RemoveInverseOps_pure_stack same inverse ops w Hlen) as (count & Hrun & _ & Hc).
  by exists count.
Qed.

Lemma RemoveInverseOps_cancel_stack_staggered :
  Z.of_nat (length Sample.staggered) <= INT_MAX + 1 /\
  exists count,
    RemoveInverseOps (World:=unit) (pure2 Sample.same) (pure2 Sample.inverse)
      Sample.staggered tt
    = Finished (cancel_stack (cancels Sample.same Sample.inverse) Sample.staggered,
                count, tt) /\
    2 * count
    = Z.of_nat (length Sample.staggered)
      - Z.of_nat (length (cancel_stack (cancels Sample.same Sample.inverse)
                                       Sample.staggered)).
Proof.
  assert (H : Z.of_nat (length Sample.staggered) <= INT_MAX + 1)
    by (vm_compute; discriminate).
  split; [exact H |].
  exact (RemoveInverseOps_cancel_stack Sample.SampleOp unit
           Sample.same Sample.inverse Sample.staggered tt H).
Defined.

(** [X4] The deep nesting A, B, ..., B', A': when each operation of the
    first half cancels its mirror image in the second half and no two
    neighbours of the first half cancel, one call of [RemoveInverseOps]
    removes the whole chain and counts one pair per operation of the first
    half. *)
Theorem RemoveInverseOps_nested
    (Op World : Type) (same inverse : Op -> Op -> bool)
    (pairs : list (Op * Op)) (w : World) :
  Forall (fun p => cancels same inverse p.1 p.2 = true) pairs ->
  no_inverse_pair (cancels same inverse) (map fst pairs) = true ->
  2 * Z.of_nat (length pairs) <= INT_MAX + 1 ->
  RemoveInverseOps (pure2 same) (pure2 inverse)
    (map fst pairs ++ rev (map snd pairs)) w
  = Finished ([], Z.of_nat (length pairs), w).
Proof.
  intros Hpairs Hfree Hlen.
  set (chain := map fst pairs ++ rev (map snd pairs)).
  assert (Hsize : length chain = (2 * length pairs)%nat).
  { unfold chain. rewrite length_app, length_rev, !length_map. lia. }
  destruct (RemoveInverseOps_pure_stack same inverse chain w) as (count & Hrun & _ & Hc);
    [lia |].
  assert (Hstack : cancel_stack (cancels same inverse) chain = []).
  { unfold cancel_stack, chain. rewrite fold_left_app.
    rewrite (fold_push_all same inverse (map fst pairs) []) by (by simpl).
    rewrite <- !map_rev.
    rewrite (fold_pop_all same inverse (rev pairs) []); [done |].
    by apply List.Forall_rev. }
  rewrite Hstack in Hrun, Hc. rewrite Hrun. simpl in Hc.
  do 3 f_equal. lia.
Qed.

Lemma RemoveInverseOps_nested_unit_test :
  RemoveInverseOps (World:=unit) (pure2 Sample.same) (pure2 Sample.inverse)
    Sample.nested tt
  = Finished ([], 2, tt).
Proof.
  apply (RemoveInverseOps_nested Sample.SampleOp unit Sample.same Sample.inverse
           [(Sample.ExponentOp Sample.TRANSFORM_DIR_FORWARD,
             Sample.ExponentOp Sample.TRANSFORM_DIR_INVERSE);
            (Sample.LogOp Sample.TRANSFORM_DIR_FORWARD,
             Sample.LogOp Sample.TRANSFORM_DIR_INVERSE)] tt).
  - repeat constructor.
  - reflexivity.
  - vm_compute. discriminate.
Defined.

(** [X5] A prefix that [RemoveInverseOps] removes completely leaves no
    trace: the call on the whole chain returns what the call on the rest
    returns, and the counts add up. *)
Theorem RemoveInverseOps_prefix
    (Op World : Type) (same inverse : Op -> Op -> bool)
    (prefix rest kept : list Op) (n m : Z) (w : World) :
  Z.of_nat (length (prefix ++ rest)) <= INT_MAX + 1 ->
  RemoveInverseOps (pure2 same) (pure2 inverse) prefix w = Finished ([], n, w) ->
  RemoveInverseOps (pure2 same) (pure2 inverse) rest w = Finished (kept, m, w) ->
  RemoveInverseOps (pure2 same) (pure2 inverse) (prefix ++ rest) w
  = Finished (kept, n + m, w).
Proof.
  intros Hlen Hprefix Hrest. rewrite length_app in Hlen.
  destruct (RemoveInverseOps_pure_stack same inverse prefix w) as (n' & Hp & _ & Hn); [lia |].
  destruct (RemoveInverseOps_pure_stack same inverse rest w) as (m' & Hr & _ & Hm); [lia |].
  destruct (RemoveInverseOps_pure_stack same inverse (prefix ++ rest) w)
    as (k & Hall & _ & Hk); [rewrite length_app; lia |].
  rewrite Hp in Hprefix. injection Hprefix as Hstack <-.
  rewrite Hr in Hrest. injection Hrest as <- <-.
  rewrite Hstack in Hn.
  assert (Hfold : fold_left (push_or_cancel (cancels same inverse)) prefix [] = []).
  { unfold cancel_stack in Hstack. apply (f_equal (@rev Op)) in Hstack.
    by rewrite rev_involutive in Hstack. }
  assert (Heq : cancel_stack (cancels same inverse) (prefix ++ rest)
                = cancel_stack (cancels same inverse) rest).
  { unfold cancel_stack. by rewrite fold_left_app, Hfold. }
  rewrite Heq in Hall, Hk. rewrite Hall.
  rewrite length_app in Hk. simpl in Hn.
  do 2 f_equal. f_equal. lia.
Qed.

Lemma RemoveInverseOps_prefix_unit_test :
  RemoveInverseOps (World:=unit) (pure2 Sample.same) (pure2 Sample.inverse)
    ([Sample.ExponentOp Sample.TRANSFORM_DIR_FORWARD;
      Sample.ExponentOp Sample.TRANSFORM_DIR_INVERSE]
     ++ [Sample.LogOp Sample.TRANSFORM_DIR_INVERSE;
         Sample.LogOp Sample.TRANSFORM_DIR_FORWARD;
         Sample.ExponentOp Sample.TRANSFORM_DIR_FORWARD]) tt
  = Finished ([Sample.ExponentOp Sample.TRANSFORM_DIR_FORWARD], 1 + 1, tt).
Proof.
  apply (RemoveInverseOps_prefix Sample.SampleOp unit Sample.same Sample.inverse).
  - vm_compute. discriminate.
  - reflexivity.
  - reflexivity.
Defined.

(** [X6] For queries that are functions, a second call of
    [RemoveInverseOps] on what the first call left removes nothing; and
    when the size of the chain fits the cursor, no two neighbours of what
    is left cancel. *)
Theorem RemoveInverseOps_idempotent
    (Op World : Type) (same inverse : Op -> Op -> bool)
    (ops : list Op) (w : World) :
  exists kept count,
    RemoveInverseOps (pure2 same) (pure2 inverse) ops w = Finished (kept, count, w) /\
    RemoveInverseOps (pure2 same) (pure2 inverse) kept w = Finished (kept, 0, w) /\
    (Z.of_nat (length ops) <= INT_MAX + 1 ->
     no_inverse_pair (cancels same inverse) kept = true).
Proof.
  destruct (RemoveInverseOps_finishes (pure2 same) (pure2 inverse) ops w)
    as (kept & count & w' & Hrun & Hsub & _).
  destruct (RemoveInverseOps_result_settled same inverse _ _ _ _ _ Hrun) as [Hset ->].
  exists kept, count. split; [done |]. split.
  - by apply RemoveInverseOps_settled.
  - intros Hlen. apply settled_no_inverse_pair; [|done].
    apply sublist_length in Hsub. lia.
Qed.

Lemma RemoveInverseOps_idempotent_staggered :
  exists kept,
    no_inverse_pair (cancels Sample.same Sample.inverse) kept = true /\
    RemoveInverseOps (World:=unit) (pure2 Sample.same) (pure2 Sample.inverse) kept tt
    = Finished (kept, 0, tt).
Proof.
  destruct (RemoveInverseOps_idempotent Sample.SampleOp unit
              Sample.same Sample.inverse Sample.staggered tt)
    as (kept & count & _ & Hagain & Hfree).
  exists kept. split; [|exact Hagain].
  apply Hfree. vm_compute. discriminate.
Defined.

(** [X7] When no operation reports another as of its type, the inverse
    query has no part in the result, and [RemoveInverseOps] returns the
    chain as it was with a count of 0. *)
Theorem RemoveInverseOps_other_types
    (Op World : Type)
    (isSameType isInverse isInverse' : Op -> Op -> World -> bool * World)
    (ops : list Op) (w : World) :
  (forall a b w0, (isSameType a b w0).1 = false) ->
  RemoveInverseOps isSameType isInverse ops w
  = RemoveInverseOps isSameType isInverse' ops w /\
  exists w', RemoveInverseOps isSameType isInverse ops w = Finished (ops, 0, w').
Proof.
  intros Hnever. split.
  - unfold RemoveInverseOps, RemoveInverseOps_run.
    by rewrite (RemoveInverseOps_loop_other_types isSameType Hnever isInverse isInverse').
  - destruct (RemoveInverseOps_run_finishes isSameType isInverse ops w)
      as (n & s & Hrun & _).
    unfold RemoveInverseOps. rewrite Hrun.
    destruct (RemoveInverseOps_loop_untouched isSameType Hnever isInverse
                (S (length ops)) 0 n (RemoveInverseOps_init ops w) s)
      as [Hv Hc]; [simpl; lia | exact Hrun |].
    simpl in Hv, Hc. rewrite Hv, Hc. by exists (iv_world s).
Qed.

Lemma RemoveInverseOps_other_types_drifting :
  exists w',
    RemoveInverseOps Drifting.isSameType Drifting.isInverse [3%nat; 1%nat; 2%nat] []
    = Finished ([3%nat; 1%nat; 2%nat], 0, w').
Proof.
  apply (RemoveInverseOps_other_types nat (list nat)
           Drifting.isSameType Drifting.isInverse Drifting.isInverse
           [3%nat; 1%nat; 2%nat] []).
  intros a b w0. reflexivity.
Defined.

(** ** Further properties of the scheduler *)

(** [X8] For queries that are functions, [OptimizeOpVec] is one call of
    [RemoveNoOps] followed by one call of [RemoveInverseOps]: the chain
    left is what [RemoveInverseOps] makes of the chain without its
    identities, the totals are the counts of those two calls, at most one
    pass is counted, at most two rounds run, and the diagnostic of the
    pass bound is not logged. *)
Theorem OptimizeOpVec_single_round
    (Op World : Type)
    (noop : Op -> bool) (same inverse : Op -> Op -> bool)
    (debug : bool) (serialize : list Op -> Z -> string)
    (ops : list Op) (w : World) :
  exists kept pairs out,
    RemoveInverseOps (pure2 same) (pure2 inverse)
      (RemoveNoOps (pure1 noop) ops w).1.1 w
    = Finished (kept, pairs, w) /\
    OptimizeOpVec (pure1 noop) (pure2 same) (pure2 inverse) debug serialize ops w
    = Finished out /\
    out_ops out = kept /\
    out_world out = w /\
    out_total_noops out = (RemoveNoOps (pure1 noop) ops w).1.2 /\
    out_total_inverseops out = pairs /\
    0 <= out_passes out <= 1 /\
    (out_rounds out <= 2)%nat /\
    existsb is_MsgMaxPasses (out_log out) = false.
Proof.
  destruct (OptimizeOpVec_pure_closed noop same inverse debug serialize ops w)
    as (kept & pairs & out & Hinv & Hout & Hrest).
  exists kept, pairs, out.
  unfold RemoveNoOps. rewrite RemoveNoOps_from_pure. simpl.
  by repeat split; try apply Hrest.
Qed.

(** [X9] For queries that are functions and a chain whose size fits the
    cursor, the chain [OptimizeOpVec] leaves is the stack reduction of the
    chain without its identities; it holds no identity operation and no
    two neighbours of it cancel. *)
Theorem OptimizeOpVec_normal_form
    (Op World : Type)
    (noop : Op -> bool) (same inverse : Op -> Op -> bool)
    (debug : bool) (serialize : list Op -> Z -> string)
    (ops : list Op) (w : World) :
  Z.of_nat (length ops) <= INT_MAX + 1 ->
  exists out,
    OptimizeOpVec (pure1 noop) (pure2 same) (pure2 inverse) debug serialize ops w
    = Finished out /\
    out_ops out
    = cancel_stack (cancels same inverse) (List.filter (fun op => negb (noop op)) ops) /\
    no_noop noop (out_ops out) = true /\
    no_inverse_pair (cancels same inverse) (out_ops out) = true.
Proof.
  intros Hlen.
  destruct (OptimizeOpVec_pure_closed noop same inverse debug serialize ops w)
    as (kept & pairs & out & Hinv & Hout & Hops & _).
  assert (Hfl : (length (List.filter (fun op => negb (noop op)) ops) <= length ops)%nat)
    by apply filter_length_le.
  destruct (RemoveInverseOps_pure_stack same inverse
              (List.filter (fun op => negb (noop op)) ops) w) as (k & Hstack & _); [lia |].
  rewrite Hstack in Hinv. injection Hinv as <- <-.
  destruct (OptimizeOpVec_pure_result noop same inverse debug serialize ops w)
    as (out' & Hout' & [Hn Hs] & _).
  rewrite Hout in Hout'. injection Hout' as <-.
  exists out. repeat split; [done | done | done |].
  apply settled_no_inverse_pair; [|done].
  destruct (OptimizeOpVec_outcome (pure1 noop) (pure2 same) (pure2 inverse)
              debug serialize ops w) as (out'' & Hout'' & Hsub & _).
  rewrite Hout in Hout''. injection Hout'' as <-.
  apply sublist_length in Hsub. lia.
Qed.

Lemma OptimizeOpVec_normal_form_staggered :
  exists out,
    OptimizeOpVec (World:=unit) (pure1 Sample.noop) (pure2 Sample.same)
      (pure2 Sample.inverse) true Sample.serialize Sample.staggered tt
    = Finished out /\
    no_noop Sample.noop (out_ops out) = true /\
    no_inverse_pair (cancels Sample.same Sample.inverse) (out_ops out) = true.
Proof.
  destruct (OptimizeOpVec_normal_form Sample.SampleOp unit Sample.noop
              Sample.same Sample.inverse true Sample.serialize Sample.staggered tt)
    as (out & Hout & _ & Hn & Hp).
  - vm_compute. discriminate.
  - by exists out.
Defined.

(** [X10] Whatever the queries answer, the passes counted do not exceed
    the length of the chain, since each counted pass removed an operation.
    So a chain of fewer than 9 operations leaves the pass loop by [break],
    and on a chain of fewer than 8 the diagnostic of the pass bound is not
    logged. *)
Theorem OptimizeOpVec_passes_le_length
    (Op World : Type)
    (isNoOp : Op -> World -> bool * World)
    (isSameType isInverse : Op -> Op -> World -> bool * World)
    (debug : bool) (serialize : list Op -> Z -> string)
    (ops : list Op) (w : World) :
  exists out,
    OptimizeOpVec isNoOp isSameType isInverse debug serialize ops w = Finished out /\
    out_passes out <= Z.of_nat (length ops) /\
    ((length ops < 9)%nat -> out_exit out <> Some ExitCondition) /\
    ((length ops < 8)%nat -> existsb is_MsgMaxPasses (out_log out) = false).
Proof.
  destruct (OptimizeOpVec_passes_log isNoOp isSameType isInverse debug serialize ops w)
    as (out & Hout & Hp & _).
  destruct (OptimizeOpVec_outcome isNoOp isSameType isInverse debug serialize ops w)
    as (out' & Hout' & _ & _ & _ & _ & Hlog & Hexit).
  rewrite Hout in Hout'. injection Hout' as <-.
  exists out. unfold MAX_OPTIMIZATION_PASSES in *.
  repeat split; [done | done | |].
  - intros Hlen Hcond. rewrite Hcond in Hexit. lia.
  - intros Hlen. rewrite Hlog. apply Z.eqb_neq. lia.
Qed.

Lemma OptimizeOpVec_passes_le_length_drifting :
  exists out,
    Drifting.optimize true (seq 0 3) = Finished out /\
    out_exit out <> Some ExitCondition /\
    existsb is_MsgMaxPasses (out_log out) = false.
Proof.
  destruct (OptimizeOpVec_passes_le_length nat (list nat)
              Drifting.isNoOp Drifting.isSameType Drifting.isInverse
              true Drifting.serialize (seq 0 3) [])
    as (out & Hout & _ & Hexit & Hlog).
  exists out. split; [exact Hout |]. split.
  - apply Hexit. simpl. lia.
  - apply Hlog. simpl. lia.
Defined.

(** [X11] With debug logging disabled, a chain of fewer than 8
    operations is optimized without a message, whatever the queries
    answer. *)
Theorem OptimizeOpVec_silent
    (Op World : Type)
    (isNoOp : Op -> World -> bool * World)
    (isSameType isInverse : Op -> Op -> World -> bool * World)
    (serialize : list Op -> Z -> string)
    (ops : list Op) (w : World) :
  (length ops < 8)%nat ->
  exists out,
    OptimizeOpVec isNoOp isSameType isInverse false serialize ops w = Finished out /\
    out_log out = [].
Proof.
  intros Hlen.
  destruct (OptimizeOpVec_passes_log isNoOp isSameType isInverse false serialize ops w)
    as (out & Hout & Hp & Hlog).
  exists out. split; [done |].
  destruct ops as [|op ops].
  - simpl in Hout. by injection Hout as <-.
  - rewrite Hlog by done.
    assert (Hne : (out_passes out =? MAX_OPTIMIZATION_PASSES) = false).
    { apply Z.eqb_neq. unfold MAX_OPTIMIZATION_PASSES. lia. }
    by rewrite Hne.
Qed.

Lemma OptimizeOpVec_silent_drifting :
  exists out, Drifting.optimize false (seq 0 7) = Finished out /\ out_log out = [].
Proof.
  apply (OptimizeOpVec_silent nat (list nat)
           Drifting.isNoOp Drifting.isSameType Drifting.isInverse
           Drifting.serialize (seq 0 7) []).
  simpl. lia.
Defined.

Lemma OptimizeOpVec_diagnostic_iff_eight :
  exists out,
    Drifting.optimize false (seq 0 8) = Finished out /\
    (existsb is_MsgMaxPasses (out_log out) = true <->
     out_exit out = Some ExitBreak /\ out_passes out = MAX_OPTIMIZATION_PASSES).
Proof.
  eexists. split; [vm_compute; reflexivity |].
  apply (OptimizeOpVec_diagnostic_iff nat (list nat)
           Drifting.isNoOp Drifting.isSameType Drifting.isInverse
           false Drifting.serialize (seq 0 8) []).
  vm_compute. reflexivity.
Defined.
